(** * Rule reconciliation of the vmalert controller

    A shallow embedding of
    [internal/controller/operator/factory/vmalert/rules.go]:
    the rule deduplicator, the renderer, the ConfigMap packer, the differ
    and the applier, together with the properties of the specification
    that concern them. *)

From Stdlib Require Import ZArith Lia Ascii.
From stdpp Require Import base option list sorting strings pretty gmap fin_maps.

Set Warnings "-clear-no-such-hyp".

(** ** Go primitives *)

(** Go's [int] on the 64-bit targets of the operator: signed, wrapping. *)
Definition wrap_int (z : Z) : Z := ((z + 2 ^ 63) mod 2 ^ 64 - 2 ^ 63)%Z.

Definition int_add (a b : Z) : Z := wrap_int (a + b).

(** [len(s)] of a Go string: its number of bytes. *)
Definition len (s : string) : Z := Z.of_nat (String.length s).

(** [strconv.Itoa] on a non-negative index. *)
Definition Itoa (i : nat) : string := pretty i.

(** [sort.Strings]: ascending in the byte-wise lexicographic order of Go
    strings, which is [String.le].  The result of sorting does not depend
    on the algorithm ([sort_Strings_unique] below). *)
Definition sort_Strings (l : list string) : list string := merge_sort String.le l.

(** ** hash/fnv: the 64-bit FNV-1a hash *)

Module fnv.
Definition offset64 : Z := 14695981039346656037.
Definition prime64 : Z := 1099511628211.

Definition write_byte (h : Z) (c : ascii) : Z :=
  (Z.lxor h (Z.of_N (N_of_ascii c)) * prime64) mod 2 ^ 64.

(** [h.Write(data)]: folds the bytes into the running hash. *)
Fixpoint Write (h : Z) (data : string) : Z :=
  match data with
  | EmptyString => h
  | String c rest => Write (write_byte h c) rest
  end.

Definition New64a : Z := offset64.
Definition Sum64 (h : Z) : Z := h.
End fnv.

(** ** Kubernetes objects *)

Module metav1.
Record OwnerReference := {
  APIVersion : string;
  Kind : string;
  Name : string;
  UID : string;
  Controller : bool;
  BlockOwnerDeletion : bool;
}.
End metav1.

(** [corev1.ConfigMap] with the fields of [ObjectMeta] the controller
    reads or writes.  A [nil] map and an empty map are both [∅]. *)
Module ConfigMap.
Record t := mk {
  Name : string;
  Namespace : string;
  Labels : gmap string string;
  Annotations : gmap string string;
  OwnerReferences : list metav1.OwnerReference;
  Finalizers : list string;
  Data : gmap string string;
}.

(** The zero value [corev1.ConfigMap{}]. *)
Definition zero : t := mk EmptyString EmptyString ∅ ∅ [] [] ∅.

Definition set_Name (n : string) (cm : t) : t :=
  mk n (Namespace cm) (Labels cm) (Annotations cm) (OwnerReferences cm)
     (Finalizers cm) (Data cm).
Definition set_Annotations (a : gmap string string) (cm : t) : t :=
  mk (Name cm) (Namespace cm) (Labels cm) a (OwnerReferences cm)
     (Finalizers cm) (Data cm).
Definition set_Finalizers (f : list string) (cm : t) : t :=
  mk (Name cm) (Namespace cm) (Labels cm) (Annotations cm)
     (OwnerReferences cm) f (Data cm).
End ConfigMap.

(** ** The API types of [vmv1beta1] *)

(** Modelled from the spec: the [vmv1beta1] types [Rule], [RuleGroup],
    [VMRuleSpec], [VMRule] and [VMAlert] are declared in the API package;
    the fields are those the controller reads or writes and those the
    data model of the specification lists. *)
Module Rule.
Record t := mk {
  Record_ : string;
  Alert : string;
  Expr : string;
  For : string;
  Labels : gmap string string;
  Annotations : gmap string string;
}.

Definition set_Labels (l : gmap string string) (r : t) : t :=
  mk (Record_ r) (Alert r) (Expr r) (For r) l (Annotations r).
End Rule.

Module RuleGroup.
Record t := mk {
  Name : string;
  Interval : string;
  Rules : list Rule.t;
}.

Definition set_Rules (rs : list Rule.t) (g : t) : t :=
  mk (Name g) (Interval g) rs.
End RuleGroup.

Module VMRuleSpec.
Record t := mk { Groups : list RuleGroup.t }.
End VMRuleSpec.

Module VMRule.
Record t := mk {
  Name : string;
  Namespace : string;
  (** [DeletionTimestamp.IsZero()] *)
  DeletionTimestampIsZero : bool;
  Spec : VMRuleSpec.t;
  (** [Status.CurrentSyncError] *)
  CurrentSyncError : string;
}.

Definition set_Spec (s : VMRuleSpec.t) (r : t) : t :=
  mk (Name r) (Namespace r) (DeletionTimestampIsZero r) s (CurrentSyncError r).
Definition set_CurrentSyncError (e : string) (r : t) : t :=
  mk (Name r) (Namespace r) (DeletionTimestampIsZero r) (Spec r) e.
End VMRule.

Module VMAlert.
Record t := mk {
  Name : string;
  Namespace : string;
  (** [Spec.EnforcedNamespaceLabel] *)
  EnforcedNamespaceLabel : string;
  (** [Spec.SelectAllByDefault] *)
  SelectAllByDefault : bool;
  (** [Spec.RuleSelector] and [Spec.RuleNamespaceSelector], as the
      label sets they match *)
  RuleSelector : option (gmap string string);
  RuleNamespaceSelector : option (gmap string string);
}.
End VMAlert.

(** ** Errors and log records *)

(** Go [error] values: the API-server errors the controller tells apart,
    and [fmt.Errorf] wrapping a cause with [%w]. *)
Inductive error :=
  | ErrNotFound
  | ErrAlreadyExists
  | ErrOther (msg : string)
  | Errorf (format : string) (args : list string) (cause : error).

(** [errors.IsNotFound] and [errors.IsAlreadyExists] look through
    wrapping. *)
Fixpoint IsNotFound (e : error) : bool :=
  match e with
  | ErrNotFound => true
  | Errorf _ _ cause => IsNotFound cause
  | _ => false
  end.

Fixpoint IsAlreadyExists (e : error) : bool :=
  match e with
  | ErrAlreadyExists => true
  | Errorf _ _ cause => IsAlreadyExists cause
  | _ => false
  end.

(** A record handed to the logger: the format string and its arguments are
    kept apart, so no formatting verb has to be interpreted. *)
Inductive LogEntry :=
  | Info (format : string) (args : list string)
  | Error (err : error) (msg : string).

(** ** Constants and methods of the API package and of libraries *)

Class API := {
  (** [vmv1beta1.MaxConfigMapDataSize] *)
  MaxConfigMapDataSize : Z;
  (** [vmv1beta1.FinalizerName] *)
  FinalizerName : string;
  (** methods of [vmv1beta1.VMAlert] *)
  IsUnmanaged : VMAlert.t → bool;
  NeedDedupRules : VMAlert.t → bool;
  PodLabels : VMAlert.t → gmap string string;
  AsOwner : VMAlert.t → list metav1.OwnerReference;
  (** the method [Validate] of [vmv1beta1.VMRule] *)
  Validate : VMRule.t → option error;
  (** [yaml.Marshal] of github.com/ghodss/yaml on a [VMRuleSpec] *)
  yaml_Marshal : VMRuleSpec.t → string + error;
  (** [err.Error()] *)
  error_Error : error → string;
}.

(** ** Package-level variables *)

Definition managedByOperatorLabel : string := "managed-by".
Definition managedByOperatorLabelValue : string := "vm-operator".
Definition managedByOperatorLabels : gmap string string :=
  {[ managedByOperatorLabel := managedByOperatorLabelValue ]}.

Definition nl : string := String (ascii_of_nat 10) EmptyString.

Definition dq : string := String (ascii_of_nat 34) EmptyString.

Definition defAlert : string :=
  String.concat nl [
    EmptyString;
    "groups:";
    "- name: vmAlertGroup";
    "  rules:";
    "     - alert: error writing to remote";
    "       for: 1m";
    "       expr: rate(vmalert_remotewrite_errors_total[1m]) > 0";
    "       labels:";
    "         host: " +:+ dq +:+ "{{ $labels.instance }}" +:+ dq;
    "       annotations:";
    "         summary: " +:+ dq +:+ " error writing to remote writer from vmaler{{ $value|humanize }}" +:+ dq;
    "         description: " +:+ dq +:+ "error writing to remote writer from vmaler {{$labels}}" +:+ dq;
    "         back: " +:+ dq +:+ "error rate is ok at vmalert " +:+ dq;
    EmptyString
  ].

(** ** The packer *)

Definition bucketSize (bucket : gmap string string) : Z :=
  map_fold (λ _ v totalSize, int_add totalSize (len v)) 0%Z bucket.

(** Go's [range] over a map yields its entries in an unspecified order.
    Functions that range over a map come in two forms: [f_from], which
    takes the order in which [range] yielded, and [f], which fixes one. *)
Definition fileNames_from (ranged : list string) : list string :=
  sort_Strings ranged.

Definition fileNames (ruleFiles : gmap string string) : list string :=
  fileNames_from (map_to_list ruleFiles).*1.

Section packer.
Context `{!API}.

(** One iteration of the packing loop over the state
    [(buckets, currBucketIndex)].  [None] is an index-out-of-range
    panic.  Reading a missing key of a Go map gives the zero value. *)
Definition packFile (ruleFiles : gmap string string)
    (st : list (gmap string string) * nat) (filename : string)
    : option (list (gmap string string) * nat) :=
  let '(buckets, currBucketIndex) := st in
  let content := default EmptyString (ruleFiles !! filename) in
  curr ← buckets !! currBucketIndex;
  let '(buckets, currBucketIndex) :=
    if bool_decide (MaxConfigMapDataSize < int_add (bucketSize curr) (len content))%Z
    then (buckets ++ [∅], S currBucketIndex)
    else (buckets, currBucketIndex) in
  curr ← buckets !! currBucketIndex;
  Some (<[currBucketIndex := <[filename := content]> curr]> buckets,
        currBucketIndex).

Fixpoint packFiles (ruleFiles : gmap string string)
    (st : list (gmap string string) * nat) (names : list string)
    : option (list (gmap string string) * nat) :=
  match names with
  | [] => Some st
  | filename :: names =>
      st ← packFile ruleFiles st filename; packFiles ruleFiles st names
  end.

(** The buckets [makeRulesConfigMaps] builds before it wraps them into
    ConfigMaps. *)
Definition makeBuckets (ruleFiles : gmap string string)
    : option (list (gmap string string)) :=
  fst <$> packFiles ruleFiles ([∅], 0) (fileNames ruleFiles).

Definition ruleConfigMapName (vmName : string) : string :=
  "vm-" +:+ vmName +:+ "-rulefiles".

Definition makeRulesConfigMap (cr : VMAlert.t)
    (ruleFiles : gmap string string) : ConfigMap.t :=
  let ruleLabels : gmap string string := {[ "vmalert-name" := VMAlert.Name cr ]} in
  let ruleLabels := managedByOperatorLabels ∪ ruleLabels in
  {| ConfigMap.Name := ruleConfigMapName (VMAlert.Name cr);
     ConfigMap.Namespace := VMAlert.Namespace cr;
     ConfigMap.Labels := ruleLabels;
     ConfigMap.Annotations := ∅;
     ConfigMap.OwnerReferences := AsOwner cr;
     ConfigMap.Finalizers := [FinalizerName];
     ConfigMap.Data := ruleFiles |}.

Definition makeRulesConfigMaps (cr : VMAlert.t)
    (ruleFiles : gmap string string) : option (list ConfigMap.t) :=
  buckets ← makeBuckets ruleFiles;
  Some (imap (λ i bucket,
                let cm := makeRulesConfigMap cr bucket in
                ConfigMap.set_Name (ConfigMap.Name cm +:+ "-" +:+ Itoa i) cm)
             buckets).
End packer.

(** ** The deduplicator *)

Record item := mk_item { key : string; value : string }.

Definition item_le (a b : item) : Prop := String.le (key a) (key b).

Global Instance item_le_dec a b : Decision (item_le a b).
Proof. unfold item_le. apply _. Defined.

Global Instance item_le_trans : Transitive item_le.
Proof. intros a b c. unfold item_le. apply transitivity. Qed.

Global Instance item_le_total : Total item_le.
Proof. intros a b. unfold item_le. apply total, _. Qed.

(** [sortMap] collects the entries that [range] yields and sorts them by
    key with [sort.Slice].  The keys of a map are distinct, so the sorted
    slice does not depend on the algorithm ([sortMap_unique] below). *)
Definition sortMap_from (ranged : list (string * string)) : list item :=
  let kv := (λ e, mk_item e.1 e.2) <$> ranged in
  merge_sort item_le kv.

Definition sortMap (m : gmap string string) : list item :=
  sortMap_from (map_to_list m).

Definition xff : string := String (ascii_of_nat 255) EmptyString.

(** The hash state after the expression, the kind tag and the name. *)
Definition ruleIDPrefix (r : Rule.t) : Z :=
  let h := fnv.New64a in
  let h := fnv.Write h (Rule.Expr r) in
  if bool_decide (Rule.Record_ r ≠ EmptyString)
  then fnv.Write (fnv.Write h "recording") (Rule.Record_ r)
  else fnv.Write (fnv.Write h "alerting") (Rule.Alert r).

Definition writeItem (h : Z) (i : item) : Z :=
  fnv.Write (fnv.Write (fnv.Write h (key i)) (value i)) xff.

Definition calculateRuleID_from (ranged : list (string * string)) (r : Rule.t) : Z :=
  let h := ruleIDPrefix r in
  let kv := sortMap_from ranged in
  fnv.Sum64 (foldl writeItem h kv).

Definition calculateRuleID (r : Rule.t) : Z :=
  calculateRuleID_from (map_to_list (Rule.Labels r)) r.

(** The inner loop of [deduplicateRules] over the rules of one group:
    [uniqRules] is the set of identities seen, [rules] the rules kept so
    far.  It returns the kept rules and the log records it emitted. *)
Fixpoint dedupLoop (vmRuleName grpName : string) (uniqRules : gset Z)
    (rules : list Rule.t) (todo : list Rule.t) : list Rule.t * list LogEntry :=
  match todo with
  | [] => (rules, [])
  | rule :: todo =>
      let ruleID := calculateRuleID rule in
      if bool_decide (ruleID ∈ uniqRules)
      then
        let '(rules, logs) := dedupLoop vmRuleName grpName uniqRules rules todo in
        (rules,
         Info "duplicate rule=%q found at group=%q for vmrule=%q"
              [Rule.Expr rule; grpName; vmRuleName] :: logs)
      else dedupLoop vmRuleName grpName ({[ruleID]} ∪ uniqRules) (rules ++ [rule]) todo
  end.

Definition dedupGroup (vmRuleName : string) (grp : RuleGroup.t)
    : RuleGroup.t * list LogEntry :=
  let '(rules, logs) :=
    dedupLoop vmRuleName (RuleGroup.Name grp) ∅ [] (RuleGroup.Rules grp) in
  (RuleGroup.set_Rules rules grp, logs).

(** Runs [f] over a list, collecting results and log records in order. *)
Fixpoint mapLog {A B} (f : A → B * list LogEntry) (l : list A)
    : list B * list LogEntry :=
  match l with
  | [] => ([], [])
  | x :: l =>
      let '(y, logs1) := f x in
      let '(ys, logs2) := mapLog f l in
      (y :: ys, logs1 ++ logs2)
  end.

Definition dedupVMRule (vmRule : VMRule.t) : VMRule.t * list LogEntry :=
  let '(groups, logs) :=
    mapLog (dedupGroup (VMRule.Name vmRule))
           (VMRuleSpec.Groups (VMRule.Spec vmRule)) in
  (VMRule.set_Spec (VMRuleSpec.mk groups) vmRule, logs).

(** [deduplicateRules] rewrites the groups of every rule source in place
    and returns its argument.  The rule sources are distinct objects (at
    the call site each is a fresh [DeepCopy]) and the rule slice of a
    group is replaced by a freshly allocated one, so the result is that
    of the same pass over values. *)
Definition deduplicateRules (origin : list VMRule.t)
    : list VMRule.t * list LogEntry :=
  mapLog dedupVMRule origin.

(** ** The renderer *)

Section renderer.
Context `{!API}.

(** The label injection of [generateContent].  It writes through the
    group and rule slices of its argument, so the caller's rule source
    is changed as well. *)
Definition enforceNamespaceLabel (promRule : VMRuleSpec.t)
    (enforcedNsLabel ns : string) : VMRuleSpec.t :=
  if bool_decide (enforcedNsLabel ≠ EmptyString)
  then
    VMRuleSpec.mk
      ((λ group,
          RuleGroup.set_Rules
            ((λ rule, Rule.set_Labels (<[enforcedNsLabel := ns]> (Rule.Labels rule)) rule)
               <$> RuleGroup.Rules group)
            group)
         <$> VMRuleSpec.Groups promRule)
  else promRule.

(** Returns the rule source as [generateContent] leaves it, and its
    result. *)
Definition generateContent (promRule : VMRuleSpec.t)
    (enforcedNsLabel ns : string) : VMRuleSpec.t * (string + error) :=
  let promRule := enforceNamespaceLabel promRule enforcedNsLabel ns in
  match yaml_Marshal promRule with
  | inr err =>
      (promRule,
       inr (Errorf "cannot unmarshal context for cm rule generation: %w" [] err))
  | inl content => (promRule, inl content)
  end.
End renderer.

(** ** The differ *)

(** [labels.Merge] of k8s.io/apimachinery: a fresh map with the entries
    of [labels1], then those of [labels2] written over them. *)
Definition labels_Merge (labels1 labels2 : gmap string string)
    : gmap string string :=
  labels2 ∪ labels1.

(** Modelled from the spec: [vmv1beta1.AddFinalizer dst src] is declared in
    the API package; it carries the finalizer state of the existing
    object [src] onto the desired object [dst], a field transplant. *)
Definition AddFinalizer (dst src : ConfigMap.t) : ConfigMap.t :=
  ConfigMap.set_Finalizers (ConfigMap.Finalizers src) dst.

(** [equality.Semantic.DeepEqual] on two string maps: equal entries, a
    [nil] map being equal to an empty one. *)
Definition DeepEqual (a b : gmap string string) : bool := bool_decide (a = b).

(** The inner loop of [rulesCMDiff] for one desired object: whether a
    current object of that name was found, and what it appends to
    [toUpdate]. *)
Fixpoint diffAgainst (newCM : ConfigMap.t) (currentCMs : list ConfigMap.t)
    : bool * list ConfigMap.t :=
  match currentCMs with
  | [] => (false, [])
  | currentCM :: currentCMs =>
      if bool_decide (ConfigMap.Name newCM = ConfigMap.Name currentCM)
      then
        let newCM :=
          ConfigMap.set_Annotations
            (labels_Merge (ConfigMap.Annotations currentCM)
                          (ConfigMap.Annotations newCM)) newCM in
        let newCM := AddFinalizer newCM currentCM in
        if DeepEqual (ConfigMap.Data newCM) (ConfigMap.Data currentCM)
           && DeepEqual (ConfigMap.Labels newCM) (ConfigMap.Labels currentCM)
           && DeepEqual (ConfigMap.Annotations newCM) (ConfigMap.Annotations currentCM)
        then (true, [])
        else (true, [newCM])
      else diffAgainst newCM currentCMs
  end.

Definition diffStep (currentCMs : list ConfigMap.t)
    (acc : list ConfigMap.t * list ConfigMap.t) (newCM : ConfigMap.t)
    : list ConfigMap.t * list ConfigMap.t :=
  let '(toCreate, toUpdate) := acc in
  let '(found, upd) := diffAgainst newCM currentCMs in
  let toUpdate := toUpdate ++ upd in
  if found then (toCreate, toUpdate) else (toCreate ++ [newCM], toUpdate).

(** Returns [(toCreate, toUpdate)]. *)
Definition rulesCMDiff (currentCMs newCMs : list ConfigMap.t)
    : list ConfigMap.t * list ConfigMap.t :=
  if bool_decide (length newCMs = 0) then ([], [])
  else if bool_decide (length currentCMs = 0) then (newCMs, [])
  else foldl (diffStep currentCMs) ([], []) newCMs.

(** ** The cluster and the effects of a reconciliation *)

(** The API server behind [client.Client], and the collaborators of this
    repository that only talk to it, as transitions of a cluster [W]. *)
Class Client (W : Type) := {
  (** [rclient.Get] of a ConfigMap by namespace and name *)
  client_Get : string → string → W → (ConfigMap.t + error) * W;
  client_Create : ConfigMap.t → W → option error * W;
  client_Update : ConfigMap.t → W → option error * W;
  (** [k8stools.VisitObjectsForSelectorsAtNs]: the rule lists it hands to
      the callback, one per call, or its error *)
  VisitObjectsForSelectorsAtNs :
    VMAlert.t → W → (list (list VMRule.t) + error) * W;
  (** [finalize.FreeIfNeeded], which receives a pointer to the object *)
  FreeIfNeeded : ConfigMap.t → W → (ConfigMap.t + error) * W;
  (** [k8stools.UpdatePodAnnotations] *)
  UpdatePodAnnotations : gmap string string → string → W → option error * W;
  (** [reconcile.StatusForChildObjects] *)
  StatusForChildObjects : string → list VMRule.t → W → option error * W;
}.

(** What a run can observe and change: the cluster, the log, and the
    arguments of the calls [badConfigsTotal.Add]. *)
Record State (W : Type) := mkState {
  world : W;
  logs : list LogEntry;
  badConfigsTotal : list nat;
}.
Arguments mkState {W}.
Arguments world {W}.
Arguments logs {W}.
Arguments badConfigsTotal {W}.

(** How a Go function ends: it returns a value ([Ok]), returns a non-nil
    error ([Fail]), or panics. *)
Inductive Result (A : Type) :=
  | Ok (a : A)
  | Fail (err : error)
  | Panic.
Arguments Ok {A}.
Arguments Fail {A}.
Arguments Panic {A}.

Definition M (W A : Type) : Type := State W → Result A * State W.

Definition ret {W A} (a : A) : M W A := λ s, (Ok a, s).

Definition bind {W A B} (m : M W A) (k : A → M W B) : M W B :=
  λ s, match m s with
       | (Ok a, s) => k a s
       | (Fail err, s) => (Fail err, s)
       | (Panic, s) => (Panic, s)
       end.

Notation "'let*' x := m 'in' k" := (bind m (λ x, k))
  (at level 10, x name, m at level 100, k at level 200,
   format "'[v' 'let*'  x  :=  m  'in' '/' k ']'").

Definition fail {W A} (err : error) : M W A := λ s, (Fail err, s).

(** [logger.WithContext(ctx).Info] and [.Error]. *)
Definition log {W} (e : LogEntry) : M W unit :=
  λ s, (Ok tt, mkState (world s) (logs s ++ [e]) (badConfigsTotal s)).

Definition emit {W} (es : list LogEntry) : M W unit :=
  λ s, (Ok tt, mkState (world s) (logs s ++ es) (badConfigsTotal s)).

Definition badConfigsTotal_Add {W} (n : nat) : M W unit :=
  λ s, (Ok tt, mkState (world s) (logs s) (badConfigsTotal s ++ [n])).

(** A call to the cluster that yields a value or an error; the error is
    handed to the caller, which decides what to do with it. *)
Definition call {W A} (f : W → A * W) : M W A :=
  λ s, let '(a, w) := f (world s) in
       (Ok a, mkState w (logs s) (badConfigsTotal s)).

(** An index-out-of-range panic of [makeRulesConfigMaps]. *)
Definition orPanic {W A} (o : option A) : M W A :=
  match o with Some a => ret a | None => λ s, (Panic, s) end.

Definition panic {W A} : M W A := λ s, (Panic, s).

(** The order [sort.Slice] is given on ConfigMaps: by name. *)
Definition cm_le (a b : ConfigMap.t) : Prop :=
  String.le (ConfigMap.Name a) (ConfigMap.Name b).

Global Instance cm_le_dec a b : Decision (cm_le a b).
Proof. unfold cm_le. apply _. Defined.

Section controller.
Context `{!API} {W : Type} `{!Client W}.

(** The callback [selectRulesUpdateStatus] hands to the selector: it
    skips the objects that are being deleted. *)
Definition visitList (acc : list VMRule.t * list string)
    (items : list VMRule.t) : list VMRule.t * list string :=
  foldl (λ acc item,
           let '(vmRules, namespacedNames) := acc in
           if negb (VMRule.DeletionTimestampIsZero item)
           then (vmRules, namespacedNames)
           else (vmRules ++ [item],
                 namespacedNames ++
                   [VMRule.Namespace item +:+ "/" +:+ VMRule.Name item]))
        acc items.

(** One iteration of the validation and rendering loop over
    [(rules, vmRules[:cnt], badRules)]. *)
Definition renderRule (cr : VMAlert.t)
    (acc : gmap string string * list VMRule.t * list VMRule.t)
    (pRule : VMRule.t)
    : gmap string string * list VMRule.t * list VMRule.t :=
  let '(rules, vmRules, badRules) := acc in
  match Validate pRule with
  | Some err =>
      (rules, vmRules,
       badRules ++ [VMRule.set_CurrentSyncError (error_Error err) pRule])
  | None =>
      let '(spec, res) :=
        generateContent (VMRule.Spec pRule) (VMAlert.EnforcedNamespaceLabel cr)
                        (VMRule.Namespace pRule) in
      let pRule := VMRule.set_Spec spec pRule in
      match res with
      | inr err =>
          (rules, vmRules,
           badRules ++
             [VMRule.set_CurrentSyncError
                ("cannot generate content for rule: " +:+ VMRule.Name pRule
                 +:+ ", err :" +:+ error_Error err) pRule])
      | inl content =>
          (<[VMRule.Namespace pRule +:+ "-" +:+ VMRule.Name pRule +:+ ".yaml"
             := content]> rules,
           vmRules ++ [pRule], badRules)
      end
  end.

Definition renderRules (cr : VMAlert.t) (vmRules : list VMRule.t)
    : gmap string string * list VMRule.t * list VMRule.t :=
  foldl (renderRule cr) (∅, [], []) vmRules.

(** The fallback injection. *)
Definition injectDefault (rules : gmap string string) : gmap string string :=
  if bool_decide (size rules = 0)
  then <["default-vmalert.yaml" := defAlert]> rules
  else rules.

(** The optional deduplication stage of [selectRulesUpdateStatus]. *)
Definition dedupIfNeeded (cr : VMAlert.t) (vmRules : list VMRule.t)
    : M W (list VMRule.t) :=
  if NeedDedupRules cr
  then
    let* _ := log (Info "deduplicating vmalert rules" []) in
    let '(vmRules, dups) := deduplicateRules vmRules in
    let* _ := emit dups in
    ret vmRules
  else ret vmRules.

(** The part of [selectRulesUpdateStatus] that follows deduplication:
    validation and rendering, the fallback, the counter, the status
    writes and the summary log line. *)
Definition renderAndReport (cr : VMAlert.t) (namespacedNames : list string)
    (vmRules : list VMRule.t) : M W (gmap string string) :=
  let '(rules, vmRules, badRules) := renderRules cr vmRules in
  let rules := injectDefault rules in
  let* _ := badConfigsTotal_Add (length badRules) in
  let parentObject :=
    VMAlert.Name cr +:+ "." +:+ VMAlert.Namespace cr +:+ ".vmalert" in
  let* err := call (StatusForChildObjects parentObject vmRules) in
  match err with
  | Some err => fail err
  | None =>
      let* err := call (StatusForChildObjects parentObject badRules) in
      match err with
      | Some err =>
          fail (Errorf "cannot update bad rules statuses: %w" [] err)
      | None =>
          let* _ :=
            if bool_decide (0 < length namespacedNames)
            then log (Info "selected Rules count=d, invalid rules count=%d, namespaced names %s"
                           [Itoa (length namespacedNames);
                            Itoa (length badRules);
                            String.concat "," namespacedNames])
            else ret tt in
          ret rules
      end
  end.

Definition selectRulesUpdateStatus (cr : VMAlert.t)
    : M W (gmap string string) :=
  let* visited := call (VisitObjectsForSelectorsAtNs cr) in
  match visited with
  | inr err => fail err
  | inl lists =>
      let '(vmRules, namespacedNames) := foldl visitList ([], []) lists in
      let* vmRules := dedupIfNeeded cr vmRules in
      renderAndReport cr namespacedNames vmRules
  end.

(** The loop that reads the current ConfigMaps into the slice made with
    [make([]corev1.ConfigMap, len(newConfigMaps))]. *)
Fixpoint getCurrentCMs (idx : nat) (newConfigMaps : list ConfigMap.t)
    (currentCMs : list ConfigMap.t) : M W (list ConfigMap.t) :=
  match newConfigMaps with
  | [] => ret currentCMs
  | cm :: newConfigMaps =>
      let* got := call (client_Get (ConfigMap.Namespace cm) (ConfigMap.Name cm)) in
      match got with
      | inr err =>
          if IsNotFound err
          then getCurrentCMs (S idx) newConfigMaps currentCMs
          else fail err
      | inl existCM =>
          if bool_decide (idx < length currentCMs)
          then getCurrentCMs (S idx) newConfigMaps (<[idx := existCM]> currentCMs)
          else panic
      end
  end.

(** The creation loop of the fast path. *)
Fixpoint createNew (newConfigMaps : list ConfigMap.t) : M W unit :=
  match newConfigMaps with
  | [] => ret tt
  | cm :: newConfigMaps =>
      let* _ := log (Info "creating new ConfigMap %s for rules" [ConfigMap.Name cm]) in
      let* err := call (client_Create cm) in
      match err with
      | Some err =>
          if IsAlreadyExists err then createNew newConfigMaps
          else fail (Errorf "failed to create Configmap: %s, err: %w"
                            [ConfigMap.Name cm] err)
      | None => createNew newConfigMaps
      end
  end.

(** The creation loop after the diff. *)
Fixpoint createAdditional (toCreate : list ConfigMap.t) : M W unit :=
  match toCreate with
  | [] => ret tt
  | cm :: toCreate =>
      let* _ := log (Info "creating additional configmap=%s for rules"
                          [ConfigMap.Name cm]) in
      let* err := call (client_Create cm) in
      match err with
      | Some err =>
          if IsAlreadyExists err then createAdditional toCreate
          else fail (Errorf "failed to create new rules Configmap: %s, err: %w"
                            [ConfigMap.Name cm] err)
      | None => createAdditional toCreate
      end
  end.

Fixpoint updateAll (toUpdate : list ConfigMap.t) : M W unit :=
  match toUpdate with
  | [] => ret tt
  | cm :: toUpdate =>
      let* freed := call (FreeIfNeeded cm) in
      match freed with
      | inr err => fail err
      | inl cm =>
          let* _ := log (Info "updating ConfigMap %s configuration"
                              [ConfigMap.Name cm]) in
          let* err := call (client_Update cm) in
          match err with
          | Some err =>
              fail (Errorf "failed to update rules Configmap: %s, err: %w"
                           [ConfigMap.Name cm] err)
          | None => updateAll toUpdate
          end
      end
  end.

(** The part of [CreateOrUpdateRuleConfigMaps] that follows the fast
    path: sort, diff, apply, and the reload trigger.  [sort.Slice] is
    not stable; objects of the same name here are equal (the zero values
    left in [currentCMs]), so their order does not show. *)
Definition diffAndApply (cr : VMAlert.t) (currentCMs newConfigMaps : list ConfigMap.t)
    (newConfigMapNames : list string) : M W (list string) :=
  let newConfigMapNames := sort_Strings newConfigMapNames in
  let currentCMs := merge_sort cm_le currentCMs in
  let newConfigMaps := merge_sort cm_le newConfigMaps in
  let '(toCreate, toUpdate) := rulesCMDiff currentCMs newConfigMaps in
  let* _ := createAdditional toCreate in
  let* _ := updateAll toUpdate in
  let* _ :=
    if bool_decide (0 < length toCreate) || bool_decide (0 < length toUpdate)
    then
      let* _ := log (Info "triggering pod config reload by changing annotation" []) in
      let* err := call (UpdatePodAnnotations (PodLabels cr) (VMAlert.Namespace cr)) in
      match err with
      | Some err => log (Error err "failed to update vmalert pod cm-sync annotation")
      | None => ret tt
      end
    else ret tt in
  ret newConfigMapNames.

(** The fast path taken when [len(currentCMs) == 0]. *)
Definition fastPath (newConfigMaps : list ConfigMap.t)
    (newConfigMapNames : list string) : M W (list string) :=
  let* _ := createNew newConfigMaps in
  ret newConfigMapNames.

Definition CreateOrUpdateRuleConfigMaps (cr : VMAlert.t) : M W (list string) :=
  if IsUnmanaged cr then ret []
  else
    let* newRules := selectRulesUpdateStatus cr in
    let* newConfigMaps := orPanic (makeRulesConfigMaps cr newRules) in
    let currentCMs := replicate (length newConfigMaps) ConfigMap.zero in
    let* currentCMs := getCurrentCMs 0 newConfigMaps currentCMs in
    let newConfigMapNames := ConfigMap.Name <$> newConfigMaps in
    if bool_decide (length currentCMs = 0)
    then fastPath newConfigMaps newConfigMapNames
    else diffAndApply cr currentCMs newConfigMaps newConfigMapNames.
End controller.

(** ** Specification-level notions *)

(** The invariant of the packing loop once the filenames [processed] have
    been visited: the current bucket is the last one, the buckets hold
    exactly the processed files with their contents, and no filename is
    in two buckets. *)
Record packInv (ruleFiles : gmap string string) (processed : list string)
    (st : list (gmap string string) * nat) : Prop := mkPackInv {
  inv_curr : S st.2 = length st.1;
  inv_sound : ∀ i b f c,
    st.1 !! i = Some b → b !! f = Some c →
    f ∈ processed ∧ ruleFiles !! f = Some c;
  inv_complete : ∀ f,
    f ∈ processed → ∃ i b, st.1 !! i = Some b ∧ is_Some (b !! f);
  inv_disjoint : ∀ i j bi bj f,
    st.1 !! i = Some bi → st.1 !! j = Some bj →
    is_Some (bi !! f) → is_Some (bj !! f) → i = j;
}.

(** A label map filled by the assignments [m[k] = v] of [l], in order. *)
Definition insertAll (l : list (string * string)) : gmap string string :=
  foldl (λ m e, <[e.1 := e.2]> m) ∅ l.

(** The identity of a rule in the words of the data model: the
    expression, the kind tag, the record-or-alert name, then the label
    entries sorted by key, each followed by a separator byte. *)
Definition itemsBytes (kv : list item) : string :=
  String.concat EmptyString ((λ i, key i +:+ value i +:+ xff) <$> kv).

Definition ruleIdentityBytes (r : Rule.t) : string :=
  Rule.Expr r
  +:+ (if bool_decide (Rule.Record_ r ≠ EmptyString)
       then "recording" +:+ Rule.Record_ r
       else "alerting" +:+ Rule.Alert r)
  +:+ itemsBytes (sortMap (Rule.Labels r)).

(** The rule at index [ir.1] of [rs] is the first of its identity: no
    rule before it has the same hash. *)
Definition isFirst (rs : list Rule.t) (ir : nat * Rule.t) : Prop :=
  calculateRuleID ir.2 ∉ calculateRuleID <$> take ir.1 rs.

Global Instance isFirst_dec rs ir : Decision (isFirst rs ir).
Proof. unfold isFirst. apply _. Defined.

(** The first occurrences of each identity in [rs], in their order. *)
Definition firstOccurrences (rs : list Rule.t) : list Rule.t :=
  snd <$> filter (isFirst rs) (imap pair rs).

(** Deduplication in the words of the specification: every group of
    every rule source keeps the first occurrences of its rules. *)
Definition dedupSpec (origin : list VMRule.t) : list VMRule.t :=
  (λ v, VMRule.set_Spec
          (VMRuleSpec.mk
             ((λ g, RuleGroup.set_Rules (firstOccurrences (RuleGroup.Rules g)) g)
                <$> VMRuleSpec.Groups (VMRule.Spec v)))
          v) <$> origin.

(** The number of rules in all groups of all rule sources. *)
Definition ruleCount (origin : list VMRule.t) : nat :=
  sum_list_with
    (λ v, sum_list_with (λ g, length (RuleGroup.Rules g))
                        (VMRuleSpec.Groups (VMRule.Spec v)))
    origin.

(** The decision of the differ for one desired object, in the words of
    the specification. *)
Inductive DiffDecision :=
  | Create
  | Update (cm : ConfigMap.t)
  | NoOp.

(** The current object a desired object is matched with: the first one
    of the same name. *)
Definition existingFor (currentCMs : list ConfigMap.t) (desired : ConfigMap.t)
    : option ConfigMap.t :=
  snd <$> list_find (λ cur, ConfigMap.Name desired = ConfigMap.Name cur) currentCMs.

Definition classify (currentCMs : list ConfigMap.t) (desired : ConfigMap.t)
    : DiffDecision :=
  match existingFor currentCMs desired with
  | None => Create
  | Some existing =>
      let merged :=
        ConfigMap.Annotations desired ∪ ConfigMap.Annotations existing in
      if bool_decide (ConfigMap.Data desired = ConfigMap.Data existing
                      ∧ ConfigMap.Labels desired = ConfigMap.Labels existing
                      ∧ merged = ConfigMap.Annotations existing)
      then NoOp
      else Update
             {| ConfigMap.Name := ConfigMap.Name desired;
                ConfigMap.Namespace := ConfigMap.Namespace desired;
                ConfigMap.Labels := ConfigMap.Labels desired;
                ConfigMap.Annotations := merged;
                ConfigMap.OwnerReferences := ConfigMap.OwnerReferences desired;
                ConfigMap.Finalizers := ConfigMap.Finalizers existing;
                ConfigMap.Data := ConfigMap.Data desired |}
  end.

Definition isCreate (currentCMs : list ConfigMap.t) (desired : ConfigMap.t) : bool :=
  match classify currentCMs desired with Create => true | _ => false end.

Definition updateOf (currentCMs : list ConfigMap.t) (desired : ConfigMap.t)
    : option ConfigMap.t :=
  match classify currentCMs desired with Update cm => Some cm | _ => None end.

(** The loop of [bucketSize] in the order [range] yields the contents. *)
Definition bucketSize_from (ranged : list string) : Z :=
  foldl (λ totalSize v, int_add totalSize (len v)) 0%Z ranged.

(** The sum of the lengths, without wrap-around. *)
Definition sumLen (l : list string) : Z := foldr (λ v acc, (len v + acc)%Z) 0%Z l.

(** What the packing loop keeps about the shape of the buckets under the
    cap [cap]: only bucket 0 may be empty, and only if nothing was
    visited or some file alone fails the fit test; the files of an earlier
    bucket come before those of a later one; and the first file of each
    bucket but bucket 0 did not fit into the bucket before it. *)
Record packShape (cap : Z) (ruleFiles : gmap string string)
    (processed : list string) (st : list (gmap string string) * nat)
    : Prop := mkPackShape {
  shape_nonempty : ∀ i b, 0 < i → st.1 !! i = Some b → b ≠ ∅;
  shape_first : st.1 !! 0 = Some ∅ →
    processed = []
    ∨ ∃ f c, ruleFiles !! f = Some c ∧ (cap < int_add 0 (len c))%Z;
  shape_order : ∀ i j bi bj f g,
    i < j → st.1 !! i = Some bi → st.1 !! j = Some bj →
    is_Some (bi !! f) → is_Some (bj !! g) → String.le f g ∧ f ≠ g;
  shape_tight : ∀ i b b',
    st.1 !! i = Some b → st.1 !! S i = Some b' →
    ∃ f c, b' !! f = Some c
           ∧ (∀ g, is_Some (b' !! g) → String.le f g)
           ∧ (cap < int_add (bucketSize b) (len c))%Z;
}.

(** The object stored for a desired object once the decision of the
    differ is carried out: the desired object when it is created, the
    merged object when it is updated, and the existing object when
    nothing is done. *)
Definition applyDecision (currentCMs : list ConfigMap.t) (desired : ConfigMap.t)
    : ConfigMap.t :=
  match classify currentCMs desired with
  | Create => desired
  | Update cm => cm
  | NoOp => default desired (existingFor currentCMs desired)
  end.

(** What the packing loop keeps about a bucket under the cap [cap]: it
    is within the cap, as is each of its files, or it holds one file
    alone, which is larger than the cap. *)
Definition cappedOrAlone (cap : Z) (ruleFiles bucket : gmap string string) : Prop :=
  ((0 ≤ bucketSize bucket ≤ cap)%Z
   ∧ ∀ g d, bucket !! g = Some d → (len d ≤ cap)%Z)
  ∨ ∃ g d, bucket = {[ g := d ]} ∧ ruleFiles !! g = Some d ∧ (cap < len d)%Z.

(** ** Concrete instances used to run the definitions *)

(** A stand-in for the YAML marshaller: it prints the labels of every
    rule, [k=v] separated by commas, the rules separated by semicolons. *)
Definition exampleMarshal (spec : VMRuleSpec.t) : string + error :=
  inl (String.concat ";"
         ((λ r, String.concat ","
                  ((λ e, e.1 +:+ "=" +:+ e.2) <$> map_to_list (Rule.Labels r)))
            <$> mjoin (RuleGroup.Rules <$> VMRuleSpec.Groups spec))).

(** An API package with cap [cap], a fixed finalizer name, a validator
    that rejects a rule source without groups, and the stand-in
    marshaller. *)
Definition exampleAPI (cap : Z) : API :=
  {| MaxConfigMapDataSize := cap;
     FinalizerName := "apps.victoriametrics.com/finalizer";
     IsUnmanaged := λ _, false;
     NeedDedupRules := λ _, true;
     PodLabels := λ cr, {[ "app.kubernetes.io/instance" := VMAlert.Name cr ]};
     AsOwner := λ _, [];
     Validate := λ r,
       if bool_decide (VMRuleSpec.Groups (VMRule.Spec r) = [])
       then Some (ErrOther "groups must not be empty") else None;
     yaml_Marshal := exampleMarshal;
     error_Error := λ _, EmptyString |}.

Definition exampleCR : VMAlert.t :=
  {| VMAlert.Name := "example";
     VMAlert.Namespace := "default";
     VMAlert.EnforcedNamespaceLabel := EmptyString;
     VMAlert.SelectAllByDefault := false;
     VMAlert.RuleSelector := None;
     VMAlert.RuleNamespaceSelector := None |}.

(** Files "a" (6 bytes), "b" (2 bytes) and "c" (5 bytes). *)
Definition threeFiles : gmap string string :=
  <["a" := "aaaaaa"]> (<["b" := "bb"]> (<["c" := "ccccc"]> ∅)).

(** One file of 9 bytes. *)
Definition oversizedFile : gmap string string := {[ "a" := "aaaaaaaaa" ]}.

(** Files "a" (6 bytes), "b" (9 bytes), "c" (2 bytes) and "d" (5 bytes). *)
Definition fourFiles : gmap string string :=
  <["a" := "aaaaaa"]> (<["b" := "bbbbbbbbb"]>
    (<["c" := "cc"]> (<["d" := "ddddd"]> ∅))).

(** Two alerting rules that differ only in one label: [ab = c] against
    [a = bc]. *)
Definition ruleLabelAbC : Rule.t :=
  {| Rule.Record_ := EmptyString; Rule.Alert := "Down"; Rule.Expr := "up == 0";
     Rule.For := "1m"; Rule.Labels := {[ "ab" := "c" ]}; Rule.Annotations := ∅ |}.

Definition ruleLabelABc : Rule.t :=
  {| Rule.Record_ := EmptyString; Rule.Alert := "Down"; Rule.Expr := "up == 0";
     Rule.For := "1m"; Rule.Labels := {[ "a" := "bc" ]}; Rule.Annotations := ∅ |}.

(** A rule source with one group that holds these two rules. *)
Definition labelSource : VMRule.t :=
  {| VMRule.Name := "labels"; VMRule.Namespace := "default";
     VMRule.DeletionTimestampIsZero := true;
     VMRule.Spec :=
       VMRuleSpec.mk [ RuleGroup.mk "g" "30s" [ruleLabelAbC; ruleLabelABc] ];
     VMRule.CurrentSyncError := EmptyString |}.

(** A rule source whose only rule carries the label [ns = other]. *)
Definition teamRule : Rule.t :=
  {| Rule.Record_ := EmptyString; Rule.Alert := "Down"; Rule.Expr := "up == 0";
     Rule.For := "1m"; Rule.Labels := {[ "ns" := "other" ]};
     Rule.Annotations := ∅ |}.

Definition teamSpec : VMRuleSpec.t :=
  VMRuleSpec.mk [ RuleGroup.mk "availability" "30s" [teamRule] ].

(** An in-memory cluster: the stored ConfigMaps by [namespace/name], the
    rule sources the selector finds, the number of reload triggers sent
    to the pods, and the status writes received. *)
Record Cluster := mkCluster {
  configMaps : gmap string ConfigMap.t;
  sources : list VMRule.t;
  podReloads : nat;
  statusWrites : list (string * list VMRule.t);
}.

Definition cmKey (ns name : string) : string := ns +:+ "/" +:+ name.

Definition storeCM (cm : ConfigMap.t) (w : Cluster) : Cluster :=
  mkCluster
    (<[cmKey (ConfigMap.Namespace cm) (ConfigMap.Name cm) := cm]> (configMaps w))
    (sources w) (podReloads w) (statusWrites w).

Global Instance memClient : Client Cluster := {|
  client_Get ns name w :=
    (match configMaps w !! cmKey ns name with
     | Some cm => inl cm
     | None => inr ErrNotFound
     end, w);
  client_Create cm w :=
    match configMaps w !! cmKey (ConfigMap.Namespace cm) (ConfigMap.Name cm) with
    | Some _ => (Some ErrAlreadyExists, w)
    | None => (None, storeCM cm w)
    end;
  client_Update cm w :=
    match configMaps w !! cmKey (ConfigMap.Namespace cm) (ConfigMap.Name cm) with
    | Some _ => (None, storeCM cm w)
    | None => (Some ErrNotFound, w)
    end;
  VisitObjectsForSelectorsAtNs cr w := (inl [sources w], w);
  FreeIfNeeded cm w := (inl cm, w);
  UpdatePodAnnotations podLabels ns w :=
    (None, mkCluster (configMaps w) (sources w) (S (podReloads w)) (statusWrites w));
  StatusForChildObjects parentObject rules w :=
    (None, mkCluster (configMaps w) (sources w) (podReloads w)
                     (statusWrites w ++ [(parentObject, rules)]));
|}.

(** A cluster with no ConfigMap and no rule source, and the state of a
    run that starts on it. *)
Definition emptyCluster : Cluster := mkCluster ∅ [] 0 [].

Definition freshRun : State Cluster := mkState emptyCluster [] [].

(** A cluster whose only rule source has no group, and so is invalid. *)
Definition invalidSource : VMRule.t :=
  {| VMRule.Name := "broken"; VMRule.Namespace := "default";
     VMRule.DeletionTimestampIsZero := true;
     VMRule.Spec := VMRuleSpec.mk [];
     VMRule.CurrentSyncError := EmptyString |}.

Definition invalidCluster : Cluster := mkCluster ∅ [invalidSource] 0 [].

(** A cluster whose only rule source is valid. *)
Definition teamSource : VMRule.t :=
  {| VMRule.Name := "team"; VMRule.Namespace := "team-a";
     VMRule.DeletionTimestampIsZero := true;
     VMRule.Spec := teamSpec;
     VMRule.CurrentSyncError := EmptyString |}.

Definition teamCluster : Cluster := mkCluster ∅ [teamSource] 0 [].

(** A group with a repeated rule: the third rule equals the first but
    for its duration and annotations, which are no part of the identity. *)
Definition ruleDown : Rule.t :=
  {| Rule.Record_ := EmptyString; Rule.Alert := "Down"; Rule.Expr := "up == 0";
     Rule.For := "1m"; Rule.Labels := {[ "severity" := "page" ]};
     Rule.Annotations := ∅ |}.

Definition ruleRate : Rule.t :=
  {| Rule.Record_ := "job:http:rate5m"; Rule.Alert := EmptyString;
     Rule.Expr := "sum by (job) (rate(http_requests_total[5m]))";
     Rule.For := EmptyString; Rule.Labels := ∅; Rule.Annotations := ∅ |}.

Definition ruleDownAgain : Rule.t :=
  {| Rule.Record_ := EmptyString; Rule.Alert := "Down"; Rule.Expr := "up == 0";
     Rule.For := "5m"; Rule.Labels := {[ "severity" := "page" ]};
     Rule.Annotations := {[ "summary" := "instance down" ]} |}.

Definition repeatedSource : VMRule.t :=
  {| VMRule.Name := "r1"; VMRule.Namespace := "default";
     VMRule.DeletionTimestampIsZero := true;
     VMRule.Spec :=
       VMRuleSpec.mk
         [ RuleGroup.mk "g1" "30s" [ruleDown; ruleRate; ruleDownAgain];
           RuleGroup.mk "g2" "30s" [ruleDownAgain] ];
     VMRule.CurrentSyncError := EmptyString |}.

(** A stored ConfigMap and two desired ones: the first differs from the
    stored one in its data, the second has no stored counterpart. *)
Definition storedCM : ConfigMap.t :=
  {| ConfigMap.Name := "vm-example-rulefiles-0"; ConfigMap.Namespace := "default";
     ConfigMap.Labels := {[ "managed-by" := "vm-operator" ]};
     ConfigMap.Annotations := {[ "note" := "kept" ]};
     ConfigMap.OwnerReferences := [];
     ConfigMap.Finalizers := ["other/finalizer"];
     ConfigMap.Data := {[ "a.yaml" := "old" ]} |}.

Definition orphanCM : ConfigMap.t :=
  ConfigMap.set_Name "vm-example-rulefiles-7" storedCM.

Definition desiredCM0 : ConfigMap.t :=
  {| ConfigMap.Name := "vm-example-rulefiles-0"; ConfigMap.Namespace := "default";
     ConfigMap.Labels := {[ "managed-by" := "vm-operator" ]};
     ConfigMap.Annotations := ∅;
     ConfigMap.OwnerReferences := [];
     ConfigMap.Finalizers := ["apps.victoriametrics.com/finalizer"];
     ConfigMap.Data := {[ "a.yaml" := "new" ]} |}.

Definition desiredCM1 : ConfigMap.t :=
  ConfigMap.set_Name "vm-example-rulefiles-1" desiredCM0.

(** * Properties *)

Example fnv_test_vector :
  fnv.Sum64 (fnv.Write fnv.New64a "foobar") = 0x85944171f73967e8%Z.
Proof. reflexivity. Qed.

(** ** Go integers *)

Lemma wrap_int_small z : (- 2 ^ 63 ≤ z < 2 ^ 63)%Z → wrap_int z = z.
Proof. intros Hz. unfold wrap_int. rewrite Z.mod_small; lia. Qed.

Lemma wrap_int_add_l a b : wrap_int (wrap_int a + b) = wrap_int (a + b).
Proof.
  unfold wrap_int. f_equal.
  replace ((a + 2 ^ 63) mod 2 ^ 64 - 2 ^ 63 + b + 2 ^ 63)%Z
    with ((a + 2 ^ 63) mod 2 ^ 64 + b)%Z by lia.
  rewrite Zplus_mod_idemp_l. f_equal. lia.
Qed.

Lemma int_add_swap a x y : int_add (int_add a x) y = int_add (int_add a y) x.
Proof.
  unfold int_add. rewrite !wrap_int_add_l. f_equal. lia.
Qed.

Lemma len_nonneg s : (0 ≤ len s)%Z.
Proof. unfold len. lia. Qed.

(** ** Sorting *)

(** Whatever order [range] yields the distinct filenames in, sorting
    gives the same list. *)
Lemma fileNames_from_order (l1 l2 : list string) :
  l1 ≡ₚ l2 → fileNames_from l1 = fileNames_from l2.
Proof.
  intros Hp. unfold fileNames_from, sort_Strings.
  apply (Sorted_unique String.le); try apply Sorted_merge_sort; try apply _.
  by rewrite !merge_sort_Permutation.
Qed.

Lemma sort_Strings_unique (l l' : list string) :
  l' ≡ₚ l → Sorted String.le l' → l' = sort_Strings l.
Proof.
  intros Hp Hs. unfold sort_Strings.
  apply (Sorted_unique String.le); [done|apply Sorted_merge_sort; apply _|].
  by rewrite merge_sort_Permutation.
Qed.

Lemma fileNames_Permutation (ruleFiles : gmap string string) :
  fileNames ruleFiles ≡ₚ (map_to_list ruleFiles).*1.
Proof. apply merge_sort_Permutation. Qed.

Lemma fileNames_NoDup (ruleFiles : gmap string string) :
  NoDup (fileNames ruleFiles).
Proof. rewrite fileNames_Permutation. apply NoDup_fst_map_to_list. Qed.

Lemma elem_of_fileNames (ruleFiles : gmap string string) f :
  f ∈ fileNames ruleFiles ↔ is_Some (ruleFiles !! f).
Proof.
  rewrite fileNames_Permutation, list_elem_of_fmap. split.
  - intros [[k v] [-> Hin]]. apply elem_of_map_to_list in Hin. eauto.
  - intros [v Hv]. exists (f, v). split; [done|]. by apply elem_of_map_to_list.
Qed.

Lemma fileNames_sorted (ruleFiles : gmap string string) :
  StronglySorted String.le (fileNames ruleFiles).
Proof. apply StronglySorted_merge_sort; apply _. Qed.

(** ** Bucket sizes *)

Lemma bucketSize_empty : bucketSize ∅ = 0%Z.
Proof. unfold bucketSize. by rewrite map_fold_empty. Qed.

Lemma bucketSize_insert (bucket : gmap string string) f c :
  bucket !! f = None →
  bucketSize (<[f := c]> bucket) = int_add (bucketSize bucket) (len c).
Proof.
  intros Hf. unfold bucketSize.
  rewrite map_fold_insert_L; [done| |done].
  intros. apply int_add_swap.
Qed.

(** ** The packing loop *)

Section packer_proofs.
Context `{!API}.

(** One step of the loop, from a state whose current bucket is the
    last one. *)
Lemma packFile_step ruleFiles buckets idx curr f :
  S idx = length buckets →
  buckets !! idx = Some curr →
  packFile ruleFiles (buckets, idx) f =
    Some (let content := default EmptyString (ruleFiles !! f) in
          if bool_decide (MaxConfigMapDataSize
                          < int_add (bucketSize curr) (len content))%Z
          then (buckets ++ [ {[ f := content ]} ], S idx)
          else (<[idx := <[f := content]> curr]> buckets, idx)).
Proof.
  intros Hlen Hcurr. unfold packFile. rewrite Hcurr. simpl.
  case_bool_decide; simpl.
  - rewrite lookup_app_r by lia.
    replace (S idx - length buckets) with 0 by lia. simpl.
    rewrite insert_app_r_alt by lia.
    replace (S idx - length buckets) with 0 by lia. simpl.
    by rewrite insert_empty.
  - by rewrite Hcurr.
Qed.

Lemma packInv_init ruleFiles : packInv ruleFiles [] ([∅], 0).
Proof.
  split; simpl.
  - done.
  - intros [|i] b f c Hb Hf; by simplify_eq/=.
  - intros f Hf. by apply elem_of_nil in Hf.
  - intros [|i] [|j] bi bj f Hi Hj; by simplify_eq/=.
Qed.

Lemma packInv_last ruleFiles processed buckets idx :
  packInv ruleFiles processed (buckets, idx) →
  ∃ curr, buckets !! idx = Some curr.
Proof.
  intros [Hc _ _ _]. simpl in Hc.
  destruct (lookup_lt_is_Some_2 buckets idx) as [curr ?]; [lia|]. eauto.
Qed.

Lemma packFile_packInv ruleFiles processed st f :
  packInv ruleFiles processed st →
  f ∉ processed →
  is_Some (ruleFiles !! f) →
  ∃ st', packFile ruleFiles st f = Some st'
         ∧ packInv ruleFiles (processed ++ [f]) st'.
Proof.
  destruct st as [buckets idx]. intros Hinv Hf [c Hc].
  destruct (packInv_last _ _ _ _ Hinv) as [curr Hcurr].
  destruct Hinv as [Hcur Hsound Hcompl Hdisj]. simpl in *.
  eexists. split; [by apply packFile_step|].
  rewrite Hc. simpl. case_bool_decide as Hover.
  - (* a new bucket is opened *)
    split; simpl.
    + rewrite length_app. simpl. lia.
    + intros i b f' c' Hb Hf'. rewrite elem_of_app, list_elem_of_singleton.
      apply lookup_app_Some in Hb as [Hb|[Hi Hb]].
      * destruct (Hsound _ _ _ _ Hb Hf'). auto.
      * apply list_lookup_singleton_Some in Hb as [_ <-].
        apply lookup_singleton_Some in Hf' as [<- <-]. auto.
    + intros f' [Hf'| ->%list_elem_of_singleton]%elem_of_app.
      * destruct (Hcompl _ Hf') as (i & b & Hb & Hin).
        exists i, b. split; [|done]. by apply lookup_app_l_Some.
      * exists (length buckets), {[ f := c ]}. split.
        -- rewrite lookup_app_r by lia. by rewrite Nat.sub_diag.
        -- rewrite lookup_singleton_eq. eauto.
    + intros i j bi bj f' Hi Hj [ci Hfi] [cj Hfj].
      apply lookup_app_Some in Hi as [Hi|[Hil Hi]];
        apply lookup_app_Some in Hj as [Hj|[Hjl Hj]].
      * eapply Hdisj; eauto.
      * apply list_lookup_singleton_Some in Hj as [_ <-].
        apply lookup_singleton_Some in Hfj as [<- <-].
        destruct (Hsound _ _ _ _ Hi Hfi). done.
      * apply list_lookup_singleton_Some in Hi as [_ <-].
        apply lookup_singleton_Some in Hfi as [<- <-].
        destruct (Hsound _ _ _ _ Hj Hfj). done.
      * apply list_lookup_singleton_Some in Hi as [? _].
        apply list_lookup_singleton_Some in Hj as [? _]. lia.
  - (* the file joins the current bucket *)
    assert (idx < length buckets) as Hlt by lia.
    split; simpl.
    + rewrite length_insert. lia.
    + intros i b f' c' Hb Hf'. rewrite elem_of_app, list_elem_of_singleton.
      apply list_lookup_insert_Some in Hb as [(-> & <- & _)|[Hne Hb]].
      * apply lookup_insert_Some in Hf' as [[<- <-]|[Hne Hf']]; [auto|].
        destruct (Hsound _ _ _ _ Hcurr Hf'). auto.
      * destruct (Hsound _ _ _ _ Hb Hf'). auto.
    + intros f' [Hf'| ->%list_elem_of_singleton]%elem_of_app.
      * destruct (Hcompl _ Hf') as (i & b & Hb & Hin).
        destruct (decide (i = idx)) as [->|Hne].
        -- simplify_eq. eexists idx, _. split.
           ++ by apply list_lookup_insert_eq.
           ++ destruct Hin as [x Hx]. rewrite lookup_insert.
              case_decide; eauto.
        -- exists i, b. split; [|done]. by rewrite list_lookup_insert_ne.
      * eexists idx, _. split; [by apply list_lookup_insert_eq|].
        rewrite lookup_insert_eq. eauto.
    + assert (∀ i b f', <[idx := <[f := c]> curr]> buckets !! i = Some b →
                is_Some (b !! f') →
                (i = idx ∧ f' = f) ∨
                ∃ b', buckets !! i = Some b' ∧ is_Some (b' !! f')) as Hcase.
      { intros i b f' Hb Hin.
        apply list_lookup_insert_Some in Hb as [(-> & <- & _)|[Hne Hb]].
        - destruct (decide (f = f')) as [->|Hne]; [auto|].
          rewrite lookup_insert_ne in Hin by done. eauto.
        - eauto. }
      intros i j bi bj f' Hi Hj Hfi Hfj.
      destruct (Hcase _ _ _ Hi Hfi) as [[-> ->]|(bi' & Hi' & [ci Hci])];
        destruct (Hcase _ _ _ Hj Hfj) as [[-> Heq]|(bj' & Hj' & [cj Hcj])].
      * done.
      * destruct (Hsound _ _ _ _ Hj' Hcj). done.
      * subst f'. destruct (Hsound _ _ _ _ Hi' Hci). done.
      * eapply Hdisj; eauto.
Qed.

Lemma packFiles_packInv ruleFiles names : ∀ processed st,
  packInv ruleFiles processed st →
  NoDup (processed ++ names) →
  (∀ f, f ∈ names → is_Some (ruleFiles !! f)) →
  ∃ st', packFiles ruleFiles st names = Some st'
         ∧ packInv ruleFiles (processed ++ names) st'.
Proof.
  induction names as [|f names IH]; intros processed st Hinv Hnd Hin; simpl.
  - exists st. by rewrite app_nil_r.
  - apply NoDup_app in Hnd as Hnd'. destruct Hnd' as (_ & Hdisj & _).
    destruct (packFile_packInv ruleFiles processed st f) as (st1 & -> & Hinv1);
      [done| |apply Hin; by left|].
    { intros Hf. eapply Hdisj; [done|by left]. }
    simpl.
    replace (processed ++ f :: names) with ((processed ++ [f]) ++ names) in *
      by (by rewrite <-(assoc_L (++))).
    apply IH; [done|done|]. intros f' Hf'. apply Hin. by right.
Qed.

(** [makeRulesConfigMaps] never panics, and its buckets satisfy the
    invariant for all the filenames. *)
Lemma makeBuckets_packInv ruleFiles :
  ∃ buckets idx,
    makeBuckets ruleFiles = Some buckets
    ∧ packInv ruleFiles (fileNames ruleFiles) (buckets, idx).
Proof.
  destruct (packFiles_packInv ruleFiles (fileNames ruleFiles) [] ([∅], 0))
    as ([buckets idx] & Hrun & Hinv).
  - apply packInv_init.
  - apply fileNames_NoDup.
  - intros f. by rewrite elem_of_fileNames.
  - exists buckets, idx. unfold makeBuckets. by rewrite Hrun.
Qed.
(** The data of the ConfigMaps are the buckets, in order. *)
Lemma makeRulesConfigMaps_Data cr ruleFiles buckets :
  makeBuckets ruleFiles = Some buckets →
  ∃ cms, makeRulesConfigMaps cr ruleFiles = Some cms
         ∧ ConfigMap.Data <$> cms = buckets.
Proof.
  intros Hb. unfold makeRulesConfigMaps. rewrite Hb. simpl.
  eexists. split; [done|].
  apply list_eq. intros i.
  rewrite list_lookup_fmap, list_lookup_imap.
  by destruct (buckets !! i).
Qed.

Lemma packFiles_app ruleFiles l1 l2 : ∀ st,
  packFiles ruleFiles st (l1 ++ l2) =
    (packFiles ruleFiles st l1 ≫= λ st, packFiles ruleFiles st l2).
Proof.
  induction l1 as [|f l1 IH]; intros st; simpl; [done|].
  destruct (packFile ruleFiles st f) as [st1|]; simpl; [apply IH|done].
Qed.

(** C1: for every filename-to-content map, [makeRulesConfigMaps] returns
    ConfigMaps whose data maps have the input map as their union; every
    input file is in exactly one of them, with its content, and nothing
    else is in any of them. *)
Theorem makeRulesConfigMaps_lossless (cr : VMAlert.t)
    (ruleFiles : gmap string string) :
  ∃ cms,
    makeRulesConfigMaps cr ruleFiles = Some cms
    ∧ ⋃ (ConfigMap.Data <$> cms) = ruleFiles
    ∧ (∀ f c, ruleFiles !! f = Some c →
         ∃ i cm, cms !! i = Some cm
                 ∧ ConfigMap.Data cm !! f = Some c
                 ∧ ∀ j cm', cms !! j = Some cm' →
                            is_Some (ConfigMap.Data cm' !! f) → j = i)
    ∧ (∀ cm f c, cm ∈ cms → ConfigMap.Data cm !! f = Some c →
                 ruleFiles !! f = Some c).
Proof.
  destruct (makeBuckets_packInv ruleFiles) as (buckets & idx & Hb & Hinv).
  destruct (makeRulesConfigMaps_Data cr ruleFiles buckets Hb) as (cms & Hcms & HD).
  destruct Hinv as [_ Hsound Hcompl Hdisj]. simpl in *.
  assert (∀ j cm, cms !! j = Some cm → buckets !! j = Some (ConfigMap.Data cm))
    as Hlk.
  { intros j cm Hj. rewrite <-HD, list_lookup_fmap, Hj. done. }
  assert (∀ f c, ruleFiles !! f = Some c →
            ∃ i cm, cms !! i = Some cm ∧ ConfigMap.Data cm !! f = Some c)
    as Hex.
  { intros f c Hf.
    destruct (Hcompl f) as (i & b & Hi & [c' Hc']).
    { apply elem_of_fileNames. eauto. }
    rewrite <-HD, list_lookup_fmap in Hi.
    destruct (cms !! i) as [cm|] eqn:Hcm; simplify_eq/=.
    exists i, cm. split; [done|].
    destruct (Hsound _ _ _ _ (Hlk _ _ Hcm) Hc') as [_ ?]. congruence. }
  exists cms. split; [done|]. split; [|split].
  - rewrite HD. apply map_eq. intros f.
    destruct (ruleFiles !! f) as [c|] eqn:Hf.
    + destruct (Hex f c Hf) as (i & cm & Hi & Hc).
      destruct ((⋃ buckets) !! f) as [c'|] eqn:Hu.
      * apply lookup_union_list_Some_1 in Hu as (b & Hin & Hbf).
        apply list_elem_of_lookup in Hin as [j Hj].
        destruct (Hsound _ _ _ _ Hj Hbf) as [_ ?]. congruence.
      * apply lookup_union_list_None_1 in Hu.
        rewrite Forall_forall in Hu.
        specialize (Hu (ConfigMap.Data cm)). rewrite Hu in Hc; [done|].
        apply list_elem_of_lookup. eauto.
    + apply lookup_union_list_None_2, Forall_forall. intros b Hin.
      apply list_elem_of_lookup in Hin as [j Hj].
      destruct (b !! f) as [c|] eqn:Hbf; [|done].
      destruct (Hsound _ _ _ _ Hj Hbf) as [_ ?]. congruence.
  - intros f c Hf. destruct (Hex f c Hf) as (i & cm & Hi & Hc).
    exists i, cm. split; [done|]. split; [done|].
    intros j cm' Hj Hin. eapply Hdisj; eauto.
  - intros cm f c Hin Hc. apply list_elem_of_lookup in Hin as [j Hj].
    by destruct (Hsound _ _ _ _ (Hlk _ _ Hj) Hc).
Qed.

(** *** Bucket sizes *)

Lemma packFile_size ruleFiles processed st f c st' :
  (MaxConfigMapDataSize < 2 ^ 63)%Z →
  packInv ruleFiles processed st →
  f ∉ processed →
  ruleFiles !! f = Some c →
  (len c ≤ MaxConfigMapDataSize)%Z →
  Forall (λ b, (bucketSize b ≤ MaxConfigMapDataSize)%Z) st.1 →
  packFile ruleFiles st f = Some st' →
  Forall (λ b, (bucketSize b ≤ MaxConfigMapDataSize)%Z) st'.1.
Proof.
  destruct st as [buckets idx]. intros Hcap Hinv Hf Hc Hlen Hall Hrun.
  destruct (packInv_last _ _ _ _ Hinv) as [curr Hcurr].
  destruct Hinv as [Hcur Hsound _ _]. simpl in Hcur, Hsound, Hall.
  rewrite (packFile_step _ _ _ curr) in Hrun by done.
  rewrite Hc in Hrun. simpl in Hrun. case_bool_decide as Hover; simplify_eq/=.
  - apply Forall_app. split; [done|]. apply Forall_singleton.
    rewrite <-insert_empty, bucketSize_insert, bucketSize_empty by done.
    unfold int_add. rewrite wrap_int_small; [done|].
    pose proof (len_nonneg c). lia.
  - apply Forall_insert; [done|].
    rewrite bucketSize_insert; [lia|].
    destruct (curr !! f) as [c'|] eqn:Hcf; [|done].
    by destruct (Hsound _ _ _ _ Hcurr Hcf).
Qed.

Lemma packFiles_size ruleFiles names : ∀ processed st st',
  (MaxConfigMapDataSize < 2 ^ 63)%Z →
  packInv ruleFiles processed st →
  NoDup (processed ++ names) →
  (∀ f, f ∈ names →
     ∃ c, ruleFiles !! f = Some c ∧ (len c ≤ MaxConfigMapDataSize)%Z) →
  Forall (λ b, (bucketSize b ≤ MaxConfigMapDataSize)%Z) st.1 →
  packFiles ruleFiles st names = Some st' →
  Forall (λ b, (bucketSize b ≤ MaxConfigMapDataSize)%Z) st'.1.
Proof.
  induction names as [|f names IH];
    intros processed st st' Hcap Hinv Hnd Hin Hall Hrun; simpl in Hrun.
  - by simplify_eq.
  - apply NoDup_app in Hnd as Hnd'. destruct Hnd' as (_ & Hdisj & _).
    assert (f ∉ processed) as Hf.
    { intros Hf. eapply Hdisj; [done|by left]. }
    destruct (Hin f) as (c & Hc & Hlen); [by left|].
    destruct (packFile_packInv ruleFiles processed st f) as (st1 & Hst1 & Hinv1);
      [done|done|eauto|].
    rewrite Hst1 in Hrun. simpl in Hrun.
    replace (processed ++ f :: names) with ((processed ++ [f]) ++ names) in *
      by (by rewrite <-(assoc_L (++))).
    eapply (IH (processed ++ [f]) st1); [done|done|done| | |done].
    + intros f' Hf'. apply Hin. by right.
    + by eapply (packFile_size ruleFiles processed st f c).
Qed.

Lemma bucketSize_singleton f c :
  (len c < 2 ^ 63)%Z → bucketSize {[ f := c ]} = len c.
Proof.
  intros Hlen. pose proof (len_nonneg c).
  rewrite <-insert_empty, bucketSize_insert, bucketSize_empty by done.
  unfold int_add. rewrite wrap_int_small; lia.
Qed.

Lemma packFile_cappedOrAlone ruleFiles processed st f c st' :
  (0 ≤ MaxConfigMapDataSize < 2 ^ 62)%Z →
  (∀ g d, ruleFiles !! g = Some d → (len d < 2 ^ 62)%Z) →
  packInv ruleFiles processed st →
  f ∉ processed →
  ruleFiles !! f = Some c →
  Forall (cappedOrAlone MaxConfigMapDataSize ruleFiles) st.1 →
  packFile ruleFiles st f = Some st' →
  Forall (cappedOrAlone MaxConfigMapDataSize ruleFiles) st'.1.
Proof.
  destruct st as [buckets idx]. intros Hcap Hsmall Hinv Hf Hc Hall Hrun.
  destruct (packInv_last _ _ _ _ Hinv) as [curr Hcurr].
  destruct Hinv as [Hcur Hsound _ _]. simpl in Hcur, Hsound, Hall.
  pose proof (Forall_lookup_1 _ _ _ _ Hall Hcurr) as Hok.
  pose proof (len_nonneg c) as Hc0. pose proof (Hsmall _ _ Hc) as Hc62.
  rewrite (packFile_step _ _ _ curr) in Hrun by done.
  rewrite Hc in Hrun. simpl in Hrun. case_bool_decide as Hover; simplify_eq/=.
  - apply Forall_app. split; [done|]. apply Forall_singleton.
    destruct (decide (len c ≤ MaxConfigMapDataSize)%Z) as [Hfit|Hbig].
    + left. rewrite bucketSize_singleton by lia. split; [lia|].
      intros g d [_ <-]%lookup_singleton_Some. done.
    + right. exists f, c. split; [done|]. split; [done|lia].
  - assert (curr !! f = None) as Hfresh.
    { destruct (curr !! f) as [c'|] eqn:Hcf; [|done].
      by destruct (Hsound _ _ _ _ Hcurr Hcf). }
    apply Forall_insert; [done|].
    destruct Hok as [[Hsize Hmem]|(g & d & -> & Hd & Hbig)].
    + left. rewrite bucketSize_insert by done.
      assert (int_add (bucketSize curr) (len c) = (bucketSize curr + len c)%Z)
        as Hadd.
      { unfold int_add. apply wrap_int_small. lia. }
      rewrite Hadd in *. split; [lia|].
      intros g d [[<- <-]|[_ Hg]]%lookup_insert_Some; [lia|by eapply Hmem].
    + exfalso. apply Hover.
      pose proof (Hsmall _ _ Hd). pose proof (len_nonneg d).
      rewrite bucketSize_singleton by lia.
      unfold int_add. rewrite wrap_int_small; lia.
Qed.

Lemma packFiles_cappedOrAlone ruleFiles names : ∀ processed st st',
  (0 ≤ MaxConfigMapDataSize < 2 ^ 62)%Z →
  (∀ g d, ruleFiles !! g = Some d → (len d < 2 ^ 62)%Z) →
  packInv ruleFiles processed st →
  NoDup (processed ++ names) →
  (∀ f, f ∈ names → is_Some (ruleFiles !! f)) →
  Forall (cappedOrAlone MaxConfigMapDataSize ruleFiles) st.1 →
  packFiles ruleFiles st names = Some st' →
  Forall (cappedOrAlone MaxConfigMapDataSize ruleFiles) st'.1.
Proof.
  induction names as [|f names IH];
    intros processed st st' Hcap Hsmall Hinv Hnd Hin Hall Hrun; simpl in Hrun.
  - by simplify_eq.
  - apply NoDup_app in Hnd as Hnd'. destruct Hnd' as (_ & Hdisj & _).
    assert (f ∉ processed) as Hf.
    { intros Hf. eapply Hdisj; [done|by left]. }
    destruct (Hin f) as [c Hc]; [by left|].
    destruct (packFile_packInv ruleFiles processed st f) as (st1 & Hst1 & Hinv1);
      [done|done|eauto|].
    rewrite Hst1 in Hrun. simpl in Hrun.
    replace (processed ++ f :: names) with ((processed ++ [f]) ++ names) in *
      by (by rewrite <-(assoc_L (++))).
    eapply (IH (processed ++ [f]) st1); [done|done|done|done| | |done].
    + intros f' Hf'. apply Hin. by right.
    + by eapply (packFile_cappedOrAlone ruleFiles processed st f c).
Qed.

(** C2, as amended: when the cap is a non-negative [int] and no single
    file is larger than the cap, every ConfigMap that
    [makeRulesConfigMaps] returns has a [bucketSize] of at most the cap.
    A file larger than the cap is packed all the same, into a ConfigMap
    that holds nothing else and exceeds the cap, and every other
    ConfigMap is within the cap; this part is for a cap and files below
    2^62 bytes, where the [int] addition of the fit test does not
    wrap. *)
Theorem bucket_sizes_capped (cr : VMAlert.t) (ruleFiles : gmap string string) :
  (0 ≤ MaxConfigMapDataSize < 2 ^ 63)%Z →
  ∃ cms,
    makeRulesConfigMaps cr ruleFiles = Some cms
    ∧ ((∀ f c, ruleFiles !! f = Some c → (len c ≤ MaxConfigMapDataSize)%Z) →
       ∀ cm, cm ∈ cms →
             (bucketSize (ConfigMap.Data cm) ≤ MaxConfigMapDataSize)%Z)
    ∧ ((MaxConfigMapDataSize < 2 ^ 62)%Z →
       (∀ f c, ruleFiles !! f = Some c → (len c < 2 ^ 62)%Z) →
       (∀ cm, cm ∈ cms →
          (bucketSize (ConfigMap.Data cm) ≤ MaxConfigMapDataSize)%Z
          ∨ ∃ f c, ConfigMap.Data cm = {[ f := c ]}
                   ∧ ruleFiles !! f = Some c
                   ∧ (MaxConfigMapDataSize < len c)%Z)
       ∧ (∀ f c, ruleFiles !! f = Some c →
            (MaxConfigMapDataSize < len c)%Z →
            ∃ cm, cm ∈ cms
                  ∧ ConfigMap.Data cm = {[ f := c ]}
                  ∧ (MaxConfigMapDataSize < bucketSize (ConfigMap.Data cm))%Z)).
Proof.
  intros Hcap.
  destruct (makeBuckets_packInv ruleFiles) as (buckets & idx & Hb & Hinv).
  destruct (makeRulesConfigMaps_Data cr ruleFiles buckets Hb) as (cms & Hcms & HD).
  exists cms. split; [done|].
  unfold makeBuckets in Hb.
  destruct (packFiles ruleFiles ([∅], 0) (fileNames ruleFiles))
    as [[buckets' idx']|] eqn:Hrun; simplify_eq/=.
  split.
  - intros Hfiles cm Hcm.
    assert (Forall (λ b, (bucketSize b ≤ MaxConfigMapDataSize)%Z)
                   (ConfigMap.Data <$> cms)) as Hall.
    { change (ConfigMap.Data <$> cms) with (ConfigMap.Data <$> cms, idx').1.
      eapply (packFiles_size ruleFiles (fileNames ruleFiles) [] ([∅], 0)
                             (ConfigMap.Data <$> cms, idx'));
        [lia|apply packInv_init|apply fileNames_NoDup| | |done].
      - intros f [c Hc]%elem_of_fileNames. eauto.
      - simpl. apply Forall_singleton. rewrite bucketSize_empty. lia. }
    rewrite Forall_forall in Hall. apply Hall.
    apply list_elem_of_fmap. eauto.
  - intros Hcap62 Hsmall.
    assert (Forall (cappedOrAlone MaxConfigMapDataSize ruleFiles)
                   (ConfigMap.Data <$> cms)) as Hall.
    { change (ConfigMap.Data <$> cms) with (ConfigMap.Data <$> cms, idx').1.
      eapply (packFiles_cappedOrAlone ruleFiles (fileNames ruleFiles) []
                ([∅], 0) (ConfigMap.Data <$> cms, idx'));
        [lia|done|apply packInv_init|apply fileNames_NoDup| | |done].
      - intros f Hf. by apply elem_of_fileNames.
      - simpl. apply Forall_singleton. left.
        rewrite bucketSize_empty. split; [lia|].
        intros g d Hg. by rewrite lookup_empty in Hg. }
    rewrite Forall_forall in Hall. split.
    + intros cm Hcm.
      destruct (Hall (ConfigMap.Data cm)) as [[Hsize _]|(f & c & ? & ? & ?)].
      { apply list_elem_of_fmap. eauto. }
      * left. lia.
      * right. eauto.
    + intros f c Hc Hbig.
      destruct (inv_complete _ _ _ Hinv f) as (i & b & Hi & [c' Hc']).
      { apply elem_of_fileNames. eauto. }
      simpl in Hi.
      destruct (inv_sound _ _ _ Hinv i b f c' Hi Hc') as [_ Hc''].
      assert (c' = c) as -> by congruence.
      apply list_lookup_fmap_Some in Hi as (cm & -> & Hcm).
      apply list_elem_of_lookup_2 in Hcm.
      exists cm. split; [done|].
      destruct (Hall (ConfigMap.Data cm)) as [[_ Hmem]|(g & d & Hdata & _ & _)].
      { apply list_elem_of_fmap. eauto. }
      * specialize (Hmem _ _ Hc'). lia.
      * rewrite Hdata in Hc'. apply lookup_singleton_Some in Hc' as [-> ->].
        split; [done|]. rewrite Hdata, bucketSize_singleton; [lia|].
        specialize (Hsmall _ _ Hc). lia.
Qed.

(** A single file larger than the cap is put in a bucket of its own,
    behind an empty first bucket. *)
Lemma oversized_file_bucket f c :
  (0 ≤ MaxConfigMapDataSize < len c)%Z → (len c < 2 ^ 63)%Z →
  makeBuckets {[ f := c ]} = Some [∅; {[ f := c ]}]
  ∧ (MaxConfigMapDataSize < bucketSize {[ f := c ]})%Z.
Proof.
  intros Hcap Hlen.
  assert (bucketSize {[ f := c ]} = len c) as Hsize.
  { rewrite <-insert_empty, bucketSize_insert, bucketSize_empty by done.
    unfold int_add. rewrite wrap_int_small; lia. }
  split; [|lia].
  unfold makeBuckets.
  assert (fileNames {[ f := c ]} = [f]) as ->.
  { apply Permutation_singleton_r.
    rewrite fileNames_Permutation, map_to_list_singleton. done. }
  rewrite (packFiles_app _ [f] [] _ : packFiles _ _ [f] = _).
  change (packFiles {[f := c]} ([∅], 0) [f])
    with (packFile {[f := c]} ([∅], 0) f ≫= λ st, Some st).
  rewrite (packFile_step _ _ _ ∅) by done.
  rewrite lookup_singleton_eq. simpl.
  rewrite bucketSize_empty. unfold int_add. rewrite wrap_int_small by lia.
  rewrite bool_decide_true by lia. done.
Qed.

(** *** The order of visits and the fit test *)

(** C3: the filenames are visited in ascending order, each once.  When
    the packer reaches a filename [f], the current bucket is the last
    one; a new bucket holding just [f] is appended exactly when the size
    of the current bucket plus the size of [f] exceeds the cap, and
    otherwise [f] is added to the current bucket; the buckets before the
    current one are left as they were.  With cap 8, files a (6 bytes) and
    b (2 bytes) share bucket 0, of size 8, and c (5 bytes) starts
    bucket 1. *)
Theorem packer_next_fit (ruleFiles : gmap string string)
    (visited : list string) (f : string) (rest : list string) :
  fileNames ruleFiles = visited ++ f :: rest →
  (StronglySorted String.le (fileNames ruleFiles)
   ∧ NoDup (fileNames ruleFiles)
   ∧ ∀ g, g ∈ fileNames ruleFiles ↔ is_Some (ruleFiles !! g))
  ∧ (∃ buckets idx curr content,
       ruleFiles !! f = Some content
       ∧ packFiles ruleFiles ([∅], 0) visited = Some (buckets, idx)
       ∧ S idx = length buckets
       ∧ buckets !! idx = Some curr
       ∧ packFiles ruleFiles ([∅], 0) (visited ++ [f]) =
           Some (if bool_decide (MaxConfigMapDataSize
                                 < int_add (bucketSize curr) (len content))%Z
                 then (buckets ++ [ {[ f := content ]} ], S idx)
                 else (<[idx := <[f := content]> curr]> buckets, idx))
       ∧ (∀ buckets' idx' i,
            packFiles ruleFiles ([∅], 0) (visited ++ [f]) = Some (buckets', idx') →
            i < idx → buckets' !! i = buckets !! i)
       ∧ makeBuckets ruleFiles =
           fst <$> (packFiles ruleFiles ([∅], 0) (visited ++ [f])
                      ≫= λ st, packFiles ruleFiles st rest))
  ∧ (@makeBuckets (exampleAPI 8) threeFiles
       = Some [ <["a" := "aaaaaa"]> (<["b" := "bb"]> ∅); <["c" := "ccccc"]> ∅ ]
     ∧ bucketSize (<["a" := "aaaaaa"]> (<["b" := "bb"]> ∅)) = 8%Z).
Proof.
  intros Hnames. split; [|split].
  - split; [apply fileNames_sorted|]. split; [apply fileNames_NoDup|].
    intros g. apply elem_of_fileNames.
  - assert (f ∈ fileNames ruleFiles) as Hf.
    { rewrite Hnames. apply elem_of_app. right. by left. }
    apply elem_of_fileNames in Hf as [content Hcontent].
    pose proof (fileNames_NoDup ruleFiles) as Hnd. rewrite Hnames in Hnd.
    destruct (packFiles_packInv ruleFiles visited [] ([∅], 0))
      as ([buckets idx] & Hrun & Hinv).
    { apply packInv_init. }
    { simpl. by apply NoDup_app in Hnd as (? & _ & _). }
    { intros g Hg. apply elem_of_fileNames. rewrite Hnames.
      apply elem_of_app. by left. }
    destruct (packInv_last _ _ _ _ Hinv) as [curr Hcurr].
    pose proof (inv_curr _ _ _ Hinv) as Hlast. simpl in Hlast.
    assert (packFiles ruleFiles ([∅], 0) (visited ++ [f]) =
              Some (if bool_decide (MaxConfigMapDataSize
                                    < int_add (bucketSize curr) (len content))%Z
                    then (buckets ++ [ {[ f := content ]} ], S idx)
                    else (<[idx := <[f := content]> curr]> buckets, idx)))
      as Hstep.
    { rewrite packFiles_app, Hrun.
      change (packFile ruleFiles (buckets, idx) f ≫= (λ st, Some st) = 
              Some (if bool_decide (MaxConfigMapDataSize
                                    < int_add (bucketSize curr) (len content))%Z
                    then (buckets ++ [ {[ f := content ]} ], S idx)
                    else (<[idx := <[f := content]> curr]> buckets, idx))).
      rewrite (packFile_step _ _ _ curr) by done.
      rewrite Hcontent. simpl. by case_bool_decide. }
    exists buckets, idx, curr, content.
    repeat split; try done.
    + intros buckets' idx' i Hrun' Hi. rewrite Hstep in Hrun'.
      case_bool_decide; simplify_eq.
      * apply lookup_app_l. lia.
      * apply list_lookup_insert_ne. lia.
    + unfold makeBuckets. rewrite Hnames.
      rewrite (assoc_L (++) visited [f] rest : visited ++ f :: rest = _).
      by rewrite packFiles_app.
  - split; by vm_compute.
Qed.

End packer_proofs.

(** C2, as stated, fails: with cap 8, a single file of 9 bytes ends up in
    a ConfigMap whose [bucketSize] is 9. *)
Lemma bucket_over_cap :
  ∃ cms cm,
    @makeRulesConfigMaps (exampleAPI 8) exampleCR oversizedFile = Some cms
    ∧ cm ∈ cms
    ∧ (@MaxConfigMapDataSize (exampleAPI 8) < bucketSize (ConfigMap.Data cm))%Z.
Proof.
  destruct (@oversized_file_bucket (exampleAPI 8) "a" "aaaaaaaaa")
    as [Hb Hsize]; [by vm_compute|by vm_compute|].
  destruct (@makeRulesConfigMaps_Data (exampleAPI 8) exampleCR _ _ Hb)
    as (cms & Hcms & HD).
  destruct cms as [|cm0 [|cm1 [|? ?]]]; simplify_eq/=.
  exists [cm0; cm1], cm1. split; [done|]. split.
  - apply elem_of_cons. right. by left.
  - match goal with Hd : ConfigMap.Data cm1 = _ |- _ => by rewrite Hd end.
Qed.

Example makeRulesConfigMaps_names :
  (λ cms : list ConfigMap.t, ConfigMap.Name <$> cms)
    <$> @makeRulesConfigMaps (exampleAPI 8) exampleCR threeFiles
  = Some ["vm-example-rulefiles-0"; "vm-example-rulefiles-1"].
Proof. by vm_compute. Qed.

Lemma bucket_sizes_capped_witness :
  (∃ cms,
     @makeRulesConfigMaps (exampleAPI 8) exampleCR threeFiles = Some cms
     ∧ ∀ cm, cm ∈ cms → (bucketSize (ConfigMap.Data cm) ≤ 8)%Z)
  ∧ (∃ cms cm,
       @makeRulesConfigMaps (exampleAPI 8) exampleCR fourFiles = Some cms
       ∧ cm ∈ cms
       ∧ ConfigMap.Data cm = {[ "b" := "bbbbbbbbb" ]}
       ∧ (8 < bucketSize (ConfigMap.Data cm))%Z).
Proof.
  split.
  - destruct (@bucket_sizes_capped (exampleAPI 8) exampleCR threeFiles)
      as (cms & Hrun & Hfit & _); [by vm_compute|].
    exists cms. split; [done|]. apply Hfit.
    intros f c Hf. unfold threeFiles in Hf.
    repeat (apply lookup_insert_Some in Hf as [[<- <-]|[_ Hf]]; [by vm_compute|]).
    by rewrite lookup_empty in Hf.
  - destruct (@bucket_sizes_capped (exampleAPI 8) exampleCR fourFiles)
      as (cms & Hrun & _ & Hbig); [by vm_compute|].
    destruct Hbig as [_ Hbig]; [by vm_compute| |].
    { intros f c Hf. unfold fourFiles in Hf.
      repeat (apply lookup_insert_Some in Hf as [[<- <-]|[_ Hf]]; [by vm_compute|]).
      by rewrite lookup_empty in Hf. }
    destruct (Hbig "b" "bbbbbbbbb") as (cm & Hcm & Hdata & Hsize);
      [by vm_compute|by vm_compute|].
    by exists cms, cm.
Defined.

Lemma packer_next_fit_witness :
  ∃ buckets idx curr content,
    threeFiles !! "b" = Some content
    ∧ @packFiles (exampleAPI 8) threeFiles ([∅], 0) ["a"] = Some (buckets, idx)
    ∧ buckets !! idx = Some curr
    ∧ @packFiles (exampleAPI 8) threeFiles ([∅], 0) ["a"; "b"] =
        Some (<[idx := <[ "b" := content]> curr]> buckets, idx).
Proof.
  destruct (@packer_next_fit (exampleAPI 8) threeFiles ["a"] "b" ["c"])
    as (_ & (buckets & idx & curr & content & Hc & Hrun & _ & Hcurr & Hstep & _) & _).
  { by vm_compute. }
  exists buckets, idx, curr, content. repeat split; try done.
  etrans; [exact Hstep|].
  vm_compute in Hrun. vm_compute in Hc. simplify_eq.
  vm_compute in Hcurr. simplify_eq. by vm_compute.
Defined.


(** ** The identity hash *)

Lemma Write_app h a b : fnv.Write h (a +:+ b) = fnv.Write (fnv.Write h a) b.
Proof. revert h. induction a as [|c a IH]; intros h; simpl; [done|apply IH]. Qed.

Lemma string_app_nil_r (a : string) : a +:+ EmptyString = a.
Proof.
  induction a as [|c a IH]; [done|].
  change (String c (a +:+ EmptyString) = String c a). by rewrite IH.
Qed.

Lemma itemsBytes_cons i kv :
  itemsBytes (i :: kv) = (key i +:+ value i +:+ xff) +:+ itemsBytes kv.
Proof.
  unfold itemsBytes. destruct kv as [|j kv]; [|done].
  simpl. by rewrite string_app_nil_r.
Qed.

Lemma foldl_writeItem h kv :
  foldl writeItem h kv = fnv.Write h (itemsBytes kv).
Proof.
  revert h. induction kv as [|i kv IH]; intros h; [done|].
  rewrite itemsBytes_cons. cbn [foldl]. rewrite IH.
  unfold writeItem. by rewrite !Write_app.
Qed.

Lemma NoDup_key_inj (l : list item) a b :
  NoDup (key <$> l) → a ∈ l → b ∈ l → key a = key b → a = b.
Proof.
  induction l as [|x l IH]; simpl; intros Hnd Ha Hb Hk.
  - by apply elem_of_nil in Ha.
  - apply NoDup_cons in Hnd as [Hx Hnd].
    apply elem_of_cons in Ha as [->|Ha]; apply elem_of_cons in Hb as [->|Hb].
    + done.
    + destruct Hx. rewrite Hk. by apply list_elem_of_fmap_2.
    + destruct Hx. rewrite <-Hk. by apply list_elem_of_fmap_2.
    + by apply IH.
Qed.

(** Whatever order [range] yields the entries of a map in, [sortMap]
    returns the same slice: the keys of a map are distinct. *)
Lemma sortMap_from_order (l1 l2 : list (string * string)) :
  NoDup l1.*1 → l1 ≡ₚ l2 → sortMap_from l1 = sortMap_from l2.
Proof.
  intros Hnd Hp. unfold sortMap_from.
  set (mk := λ e : string * string, mk_item e.1 e.2).
  assert (NoDup (key <$> (mk <$> l1))) as Hnd1.
  { rewrite <-list_fmap_compose. done. }
  apply (Sorted_unique_strong item_le);
    try (apply Sorted_merge_sort; apply _).
  - intros a b Ha Hb Hab Hba.
    rewrite merge_sort_Permutation in Ha, Hb. rewrite <-Hp in Hb.
    apply (NoDup_key_inj _ _ _ Hnd1 Ha Hb).
    unfold item_le in *. by apply (anti_symm String.le).
  - by rewrite !merge_sort_Permutation, Hp.
Qed.

Lemma sortMap_unique (m : gmap string string) (kv : list item) :
  kv ≡ₚ (λ e, mk_item e.1 e.2) <$> map_to_list m →
  Sorted item_le kv →
  kv = sortMap m.
Proof.
  intros Hp Hs. unfold sortMap, sortMap_from.
  assert (NoDup (key <$> kv)) as Hnd.
  { rewrite Hp, <-list_fmap_compose. apply NoDup_fst_map_to_list. }
  apply (Sorted_unique_strong item_le);
    [|done|apply Sorted_merge_sort; apply _|by rewrite merge_sort_Permutation].
  intros a b Ha Hb Hab Hba.
  rewrite merge_sort_Permutation, <-Hp in Hb.
  apply (NoDup_key_inj _ _ _ Hnd Ha Hb).
  unfold item_le in *. by apply (anti_symm String.le).
Qed.

Lemma insertAll_list_to_map l : insertAll l = list_to_map (reverse l).
Proof.
  unfold insertAll. induction l as [|[k v] l IH] using rev_ind; [done|].
  rewrite foldl_app, reverse_app. simpl. by rewrite IH.
Qed.

Lemma insertAll_order l1 l2 :
  NoDup l1.*1 → l1 ≡ₚ l2 → insertAll l1 = insertAll l2.
Proof.
  intros Hnd Hp. rewrite !insertAll_list_to_map.
  apply list_to_map_proper.
  - by rewrite reverse_Permutation.
  - by rewrite !reverse_Permutation.
Qed.

(** X23: the hash of a rule is the FNV-1a hash of its expression, kind
    tag, name and key-sorted label entries; it is the same for two rules
    that differ only in the order in which their labels were inserted,
    whatever order [range] yields the labels in. *)
Theorem calculateRuleID_label_order (r : Rule.t)
    (l1 l2 ranged1 ranged2 : list (string * string)) :
  NoDup l1.*1 →
  l1 ≡ₚ l2 →
  ranged1 ≡ₚ map_to_list (insertAll l1) →
  ranged2 ≡ₚ map_to_list (insertAll l2) →
  calculateRuleID_from ranged1 (Rule.set_Labels (insertAll l1) r)
    = calculateRuleID_from ranged2 (Rule.set_Labels (insertAll l2) r)
  ∧ calculateRuleID_from ranged1 (Rule.set_Labels (insertAll l1) r)
    = calculateRuleID (Rule.set_Labels (insertAll l1) r)
  ∧ calculateRuleID (Rule.set_Labels (insertAll l1) r)
    = fnv.Sum64 (fnv.Write fnv.New64a
                   (ruleIdentityBytes (Rule.set_Labels (insertAll l1) r))).
Proof.
  intros Hnd Hp Hr1 Hr2.
  rewrite <-(insertAll_order l1 l2) in * by done.
  assert (∀ ranged, ranged ≡ₚ map_to_list (insertAll l1) →
            sortMap_from ranged = sortMap (insertAll l1)) as Hsort.
  { intros ranged Hr. apply sortMap_from_order; [|done].
    rewrite Hr. apply NoDup_fst_map_to_list. }
  unfold calculateRuleID, calculateRuleID_from.
  cbn [Rule.Labels Rule.set_Labels].
  rewrite (Hsort ranged1), (Hsort ranged2) by done.
  split; [reflexivity|]. split; [reflexivity|].
  rewrite foldl_writeItem. unfold ruleIdentityBytes, ruleIDPrefix, sortMap.
  cbn [Rule.Labels Rule.Expr Rule.Record_ Rule.Alert Rule.set_Labels].
  unfold fnv.Sum64.
  case_bool_decide; rewrite !Write_app; reflexivity.
Qed.

(** C4: the hash does not tell apart two rules whose labels differ.
    The loop of [calculateRuleID] writes a key and its value one after
    the other and the separator byte only after the value, so the labels
    [ab = c] and [a = bc] give the same bytes and the same hash.  The
    two rules agree in every other field.  In one group,
    [deduplicateRules] takes the second for a duplicate of the first,
    drops it and logs it. *)
Theorem calculateRuleID_undelimited :
  Rule.Labels ruleLabelAbC ≠ Rule.Labels ruleLabelABc
  ∧ Rule.Expr ruleLabelAbC = Rule.Expr ruleLabelABc
  ∧ Rule.Record_ ruleLabelAbC = Rule.Record_ ruleLabelABc
  ∧ Rule.Alert ruleLabelAbC = Rule.Alert ruleLabelABc
  ∧ ruleIdentityBytes ruleLabelAbC = ruleIdentityBytes ruleLabelABc
  ∧ calculateRuleID ruleLabelAbC = calculateRuleID ruleLabelABc
  ∧ deduplicateRules [labelSource]
    = ([ VMRule.set_Spec
           (VMRuleSpec.mk [ RuleGroup.mk "g" "30s" [ruleLabelAbC] ])
           labelSource ],
       [ Info "duplicate rule=%q found at group=%q for vmrule=%q"
              ["up == 0"; "g"; "labels"] ]).
Proof.
  split; [|by vm_compute].
  intros Heq. apply (f_equal (λ m : gmap string string, m !! "ab")) in Heq.
  by vm_compute in Heq.
Qed.

Lemma calculateRuleID_label_order_witness :
  calculateRuleID (Rule.set_Labels (insertAll [("job", "a"); ("env", "b")]) ruleLabelAbC)
  = calculateRuleID (Rule.set_Labels (insertAll [("env", "b"); ("job", "a")]) ruleLabelAbC).
Proof.
  apply (calculateRuleID_label_order ruleLabelAbC
           [("job", "a"); ("env", "b")] [("env", "b"); ("job", "a")]
           (map_to_list (insertAll [("job", "a"); ("env", "b")]))
           (map_to_list (insertAll [("env", "b"); ("job", "a")]))).
  - apply (bool_decide_unpack _). by vm_compute.
  - apply Permutation_swap.
  - reflexivity.
  - reflexivity.
Defined.

(** ** The deduplicator *)

Lemma dedupLoop_spec v g todo : ∀ pre uniq rules,
  (∀ z, z ∈ uniq ↔ z ∈ calculateRuleID <$> pre) →
  (dedupLoop v g uniq rules todo).1 =
    rules ++ (snd <$> filter (isFirst (pre ++ todo))
                             (imap (λ i r, (length pre + i, r)) todo)).
Proof.
  induction todo as [|rule todo IH]; intros pre uniq rules Huniq.
  { simpl. by rewrite app_nil_r. }
  assert (take (length pre + 0) (pre ++ rule :: todo) = pre) as Htake.
  { by apply take_app_length'. }
  assert (imap ((λ i r, (length pre + i, r)) ∘ S) todo
          = imap (λ i r, (length (pre ++ [rule]) + i, r)) todo) as Himap.
  { apply imap_ext. intros i x _. simpl. rewrite length_app. simpl.
    f_equal. lia. }
  assert (pre ++ rule :: todo = (pre ++ [rule]) ++ todo) as Happ.
  { by rewrite <-(assoc_L (++)). }
  rewrite imap_cons. simpl dedupLoop. case_bool_decide as Hdup.
  - specialize (IH (pre ++ [rule]) uniq rules).
    destruct (dedupLoop v g uniq rules todo) as [out logs]. simpl in *.
    rewrite filter_cons_False.
    + rewrite Himap, Happ. apply IH.
      intros z. rewrite Huniq, fmap_app, elem_of_app. simpl.
      rewrite list_elem_of_singleton. split; [auto|].
      intros [?| ->]; [done|]. by apply Huniq.
    + unfold isFirst. simpl. rewrite Htake. intros Hn. apply Hn.
      by apply Huniq.
  - rewrite filter_cons_True.
    + rewrite (IH (pre ++ [rule])).
      * rewrite Himap, Happ. simpl. by rewrite <-(assoc_L (++)).
      * intros z. rewrite elem_of_union, elem_of_singleton, Huniq,
          fmap_app, elem_of_app. simpl. rewrite list_elem_of_singleton.
        naive_solver.
    + unfold isFirst. simpl. rewrite Htake. by rewrite <-Huniq.
Qed.

Lemma dedupLoop_firstOccurrences v g rs :
  (dedupLoop v g ∅ [] rs).1 = firstOccurrences rs.
Proof.
  rewrite (dedupLoop_spec v g rs [] ∅ []); [done|].
  intros z. simpl. rewrite elem_of_nil. set_solver.
Qed.

(** One log record per dropped rule. *)
Lemma dedupLoop_length v g todo : ∀ uniq rules,
  length (dedupLoop v g uniq rules todo).1
  + length (dedupLoop v g uniq rules todo).2
  = length rules + length todo.
Proof.
  induction todo as [|rule todo IH]; intros uniq rules; simpl; [lia|].
  case_bool_decide.
  - specialize (IH uniq rules).
    destruct (dedupLoop v g uniq rules todo) as [out logs]. simpl in *. lia.
  - rewrite IH, length_app. simpl. lia.
Qed.

(** A list without two rules of the same identity goes through the loop
    unchanged and without a log record. *)
Lemma dedupLoop_NoDup_id v g todo : ∀ uniq rules,
  NoDup (calculateRuleID <$> todo) →
  (∀ r, r ∈ todo → calculateRuleID r ∉ uniq) →
  dedupLoop v g uniq rules todo = (rules ++ todo, []).
Proof.
  induction todo as [|rule todo IH]; intros uniq rules Hnd Hfresh; simpl.
  { by rewrite app_nil_r. }
  rewrite fmap_cons in Hnd. apply NoDup_cons in Hnd as [Hhd Hnd].
  rewrite bool_decide_false by (apply Hfresh; by left).
  rewrite IH; [by rewrite <-(assoc_L (++))|done|].
  intros r Hr. rewrite elem_of_union, elem_of_singleton.
  intros [Heq|Hin].
  - apply Hhd. rewrite <-Heq. by apply list_elem_of_fmap_2.
  - apply (Hfresh r); [by right|done].
Qed.

Lemma dedupLoop_NoDup v g todo : ∀ uniq rules,
  NoDup (calculateRuleID <$> rules) →
  (∀ r, r ∈ rules → calculateRuleID r ∈ uniq) →
  NoDup (calculateRuleID <$> (dedupLoop v g uniq rules todo).1).
Proof.
  induction todo as [|rule todo IH]; intros uniq rules Hnd Hseen; simpl; [done|].
  case_bool_decide as Hdup.
  - specialize (IH uniq rules Hnd Hseen).
    by destruct (dedupLoop v g uniq rules todo).
  - apply IH.
    + rewrite fmap_app. apply NoDup_app. split; [done|]. split.
      * intros z Hz Hz'. simpl in Hz'. apply list_elem_of_singleton in Hz' as ->.
        apply list_elem_of_fmap in Hz as (r & Hr & Hin).
        apply Hdup. rewrite Hr. by apply Hseen.
      * simpl. apply NoDup_singleton.
    + intros r [Hr| ->%list_elem_of_singleton]%elem_of_app; set_solver.
Qed.

Lemma dedupLoop_keeps v g todo : ∀ uniq rules z,
  z ∈ calculateRuleID <$> rules →
  z ∈ calculateRuleID <$> (dedupLoop v g uniq rules todo).1.
Proof.
  induction todo as [|rule todo IH]; intros uniq rules z Hin; simpl; [done|].
  case_bool_decide.
  - specialize (IH uniq rules z Hin).
    by destruct (dedupLoop v g uniq rules todo).
  - apply IH. rewrite fmap_app, elem_of_app. by left.
Qed.

Lemma dedupLoop_ids v g todo : ∀ uniq rules z,
  (∀ y, y ∈ uniq → y ∈ calculateRuleID <$> rules) →
  z ∈ calculateRuleID <$> todo →
  z ∈ calculateRuleID <$> (dedupLoop v g uniq rules todo).1.
Proof.
  induction todo as [|rule todo IH]; intros uniq rules z Hseen Hz; simpl.
  { by apply elem_of_nil in Hz. }
  rewrite fmap_cons in Hz. apply elem_of_cons in Hz as [->|Hz].
  - case_bool_decide as Hdup.
    + apply Hseen in Hdup.
      pose proof (dedupLoop_keeps v g todo uniq rules _ Hdup) as Hk.
      by destruct (dedupLoop v g uniq rules todo).
    + apply dedupLoop_keeps. rewrite fmap_app, elem_of_app. right.
      simpl. by left.
  - case_bool_decide as Hdup.
    + specialize (IH uniq rules z Hseen Hz).
      by destruct (dedupLoop v g uniq rules todo).
    + apply IH; [|done].
      intros y. rewrite elem_of_union, elem_of_singleton, fmap_app, elem_of_app.
      simpl. rewrite list_elem_of_singleton. intros [->|Hy]; [by right|].
      left. by apply Hseen.
Qed.

(** *** The spec-level function *)

Lemma firstOccurrences_sublist rs : firstOccurrences rs `sublist_of` rs.
Proof.
  unfold firstOccurrences.
  assert (snd <$> imap pair rs = rs) as Hrs.
  { apply list_eq. intros i. rewrite list_lookup_fmap, list_lookup_imap.
    by destruct (rs !! i). }
  pose proof (fmap_sublist snd _ _ (sublist_filter (isFirst rs) (imap pair rs)))
    as Hsub.
  by rewrite Hrs in Hsub.
Qed.

Lemma firstOccurrences_NoDup rs :
  NoDup (calculateRuleID <$> firstOccurrences rs).
Proof.
  rewrite <-(dedupLoop_firstOccurrences EmptyString EmptyString).
  apply dedupLoop_NoDup; [constructor|]. intros r Hr. by apply elem_of_nil in Hr.
Qed.

Lemma firstOccurrences_ids rs r :
  r ∈ rs → calculateRuleID r ∈ calculateRuleID <$> firstOccurrences rs.
Proof.
  intros Hr. rewrite <-(dedupLoop_firstOccurrences EmptyString EmptyString).
  apply dedupLoop_ids; [set_solver|]. by apply list_elem_of_fmap_2.
Qed.

Lemma firstOccurrences_NoDup_id rs :
  NoDup (calculateRuleID <$> rs) → firstOccurrences rs = rs.
Proof.
  intros Hnd. rewrite <-(dedupLoop_firstOccurrences EmptyString EmptyString).
  rewrite dedupLoop_NoDup_id; [done|done|set_solver].
Qed.

(** *** Groups and rule sources *)

Lemma mapLog_fst {A B} (f : A → B * list LogEntry) l :
  (mapLog f l).1 = (λ x, (f x).1) <$> l.
Proof.
  induction l as [|x l IH]; simpl; [done|].
  destruct (f x) as [y logs1], (mapLog f l) as [ys logs2]. simpl in *.
  by rewrite IH.
Qed.

Lemma mapLog_snd_length {A B} (f : A → B * list LogEntry) l :
  length (mapLog f l).2 = sum_list_with (λ x, length (f x).2) l.
Proof.
  induction l as [|x l IH]; simpl; [done|].
  destruct (f x) as [y logs1], (mapLog f l) as [ys logs2]. simpl in *.
  rewrite length_app. lia.
Qed.

Lemma mapLog_snd_nil {A B} (f : A → B * list LogEntry) l :
  (∀ x, x ∈ l → (f x).2 = []) → (mapLog f l).2 = [].
Proof.
  induction l as [|x l IH]; simpl; intros Hnil; [done|].
  pose proof (Hnil x ltac:(by left)) as Hx.
  destruct (f x) as [y logs1], (mapLog f l) as [ys logs2]. simpl in *.
  rewrite Hx, IH; [done|]. intros x' Hx'. apply Hnil. by right.
Qed.

Lemma dedupGroup_fst v g :
  (dedupGroup v g).1
  = RuleGroup.set_Rules (firstOccurrences (RuleGroup.Rules g)) g.
Proof.
  unfold dedupGroup.
  pose proof (dedupLoop_firstOccurrences v (RuleGroup.Name g) (RuleGroup.Rules g)) as Hf.
  destruct (dedupLoop v (RuleGroup.Name g) ∅ [] (RuleGroup.Rules g)).
  simpl in *. by rewrite Hf.
Qed.

Lemma dedupGroup_length v g :
  length (RuleGroup.Rules (dedupGroup v g).1) + length (dedupGroup v g).2
  = length (RuleGroup.Rules g).
Proof.
  unfold dedupGroup.
  pose proof (dedupLoop_length v (RuleGroup.Name g) (RuleGroup.Rules g) ∅ []) as Hl.
  destruct (dedupLoop v (RuleGroup.Name g) ∅ [] (RuleGroup.Rules g)).
  simpl in *. lia.
Qed.

Lemma dedupVMRule_fst v :
  (dedupVMRule v).1
  = VMRule.set_Spec
      (VMRuleSpec.mk
         ((λ g, RuleGroup.set_Rules (firstOccurrences (RuleGroup.Rules g)) g)
            <$> VMRuleSpec.Groups (VMRule.Spec v)))
      v.
Proof.
  unfold dedupVMRule.
  pose proof (mapLog_fst (dedupGroup (VMRule.Name v))
                         (VMRuleSpec.Groups (VMRule.Spec v))) as Hf.
  destruct (mapLog (dedupGroup (VMRule.Name v))
                   (VMRuleSpec.Groups (VMRule.Spec v))) as [groups logs].
  simpl in *. rewrite Hf. do 2 f_equal.
  apply list_fmap_ext. intros i g _. apply dedupGroup_fst.
Qed.

Lemma deduplicateRules_fst origin :
  (deduplicateRules origin).1 = dedupSpec origin.
Proof.
  unfold deduplicateRules, dedupSpec. rewrite mapLog_fst.
  apply list_fmap_ext. intros i v _. apply dedupVMRule_fst.
Qed.

Lemma mapLog_id {A} (f : A → A * list LogEntry) l :
  (∀ x, x ∈ l → f x = (x, [])) → mapLog f l = (l, []).
Proof.
  induction l as [|x l IH]; simpl; intros Hid; [done|].
  rewrite (Hid x) by (by left). rewrite IH; [done|].
  intros x' Hx'. apply Hid. by right.
Qed.

Lemma dedupGroup_NoDup_id v g :
  NoDup (calculateRuleID <$> RuleGroup.Rules g) → dedupGroup v g = (g, []).
Proof.
  intros Hnd. unfold dedupGroup.
  rewrite dedupLoop_NoDup_id; [by destruct g|done|set_solver].
Qed.

Lemma dedupVMRule_NoDup_id v :
  (∀ g, g ∈ VMRuleSpec.Groups (VMRule.Spec v) →
        NoDup (calculateRuleID <$> RuleGroup.Rules g)) →
  dedupVMRule v = (v, []).
Proof.
  intros Hnd. unfold dedupVMRule. rewrite mapLog_id.
  - by destruct v as [? ? ? [?] ?].
  - intros g Hg. by apply dedupGroup_NoDup_id, Hnd.
Qed.

Lemma dedupSpec_NoDup origin v g :
  v ∈ dedupSpec origin →
  g ∈ VMRuleSpec.Groups (VMRule.Spec v) →
  NoDup (calculateRuleID <$> RuleGroup.Rules g).
Proof.
  unfold dedupSpec. intros (v0 & -> & _)%list_elem_of_fmap. simpl.
  intros (g0 & -> & _)%list_elem_of_fmap. simpl.
  apply firstOccurrences_NoDup.
Qed.

Lemma dedupVMRule_count v :
  length (dedupVMRule v).2
  + sum_list_with (λ g, length (RuleGroup.Rules g))
                  (VMRuleSpec.Groups (VMRule.Spec (dedupVMRule v).1))
  = sum_list_with (λ g, length (RuleGroup.Rules g))
                  (VMRuleSpec.Groups (VMRule.Spec v)).
Proof.
  unfold dedupVMRule.
  generalize (VMRuleSpec.Groups (VMRule.Spec v)) as groups.
  intros groups.
  assert (length (mapLog (dedupGroup (VMRule.Name v)) groups).2
          + sum_list_with (λ g, length (RuleGroup.Rules g))
                          (mapLog (dedupGroup (VMRule.Name v)) groups).1
          = sum_list_with (λ g, length (RuleGroup.Rules g)) groups) as Hsum.
  { induction groups as [|g groups IH]; simpl; [done|].
    pose proof (dedupGroup_length (VMRule.Name v) g) as Hg.
    destruct (dedupGroup (VMRule.Name v) g) as [g' logs1].
    destruct (mapLog (dedupGroup (VMRule.Name v)) groups) as [gs' logs2].
    simpl in *. rewrite length_app. lia. }
  destruct (mapLog (dedupGroup (VMRule.Name v)) groups) as [gs' logs].
  simpl in *. lia.
Qed.

Lemma deduplicateRules_count origin :
  length (deduplicateRules origin).2 + ruleCount (deduplicateRules origin).1
  = ruleCount origin.
Proof.
  unfold deduplicateRules, ruleCount.
  induction origin as [|v origin IH]; simpl; [done|].
  pose proof (dedupVMRule_count v) as Hv.
  destruct (dedupVMRule v) as [v' logs1].
  destruct (mapLog dedupVMRule origin) as [vs' logs2].
  simpl in *. rewrite length_app. lia.
Qed.

(** C5: [deduplicateRules] always returns; it keeps the rule sources and
    their groups in order with their names, and replaces the rules of
    each group, independently of the other groups, by the first
    occurrences of each identity hash in their original order.  It logs
    one record per dropped rule. *)
Theorem deduplicateRules_first_occurrence (origin : list VMRule.t) :
  ∃ out logs,
    deduplicateRules origin = (out, logs)
    ∧ out = dedupSpec origin
    ∧ Forall2
        (λ v v',
           VMRule.Name v' = VMRule.Name v
           ∧ VMRule.Namespace v' = VMRule.Namespace v
           ∧ VMRule.CurrentSyncError v' = VMRule.CurrentSyncError v
           ∧ Forall2
               (λ g g',
                  RuleGroup.Name g' = RuleGroup.Name g
                  ∧ RuleGroup.Interval g' = RuleGroup.Interval g
                  ∧ RuleGroup.Rules g' = firstOccurrences (RuleGroup.Rules g)
                  ∧ RuleGroup.Rules g' `sublist_of` RuleGroup.Rules g
                  ∧ NoDup (calculateRuleID <$> RuleGroup.Rules g')
                  ∧ ∀ r, r ∈ RuleGroup.Rules g →
                         calculateRuleID r
                           ∈ calculateRuleID <$> RuleGroup.Rules g')
               (VMRuleSpec.Groups (VMRule.Spec v))
               (VMRuleSpec.Groups (VMRule.Spec v')))
        origin out
    ∧ length logs + ruleCount out = ruleCount origin.
Proof.
  pose proof (deduplicateRules_fst origin) as Hfst.
  pose proof (deduplicateRules_count origin) as Hcount.
  destruct (deduplicateRules origin) as [out logs]. simpl in *.
  exists out, logs. split; [done|]. split; [done|]. split; [|done].
  subst out. unfold dedupSpec.
  apply Forall2_fmap_r, Forall_Forall2_diag, Forall_forall.
  intros v _. simpl. repeat split.
  apply Forall2_fmap_r, Forall_Forall2_diag, Forall_forall.
  intros g _. simpl. repeat split.
  - apply firstOccurrences_sublist.
  - apply firstOccurrences_NoDup.
  - apply firstOccurrences_ids.
Qed.

(** C10: a second application of [deduplicateRules] to its own output
    returns that output again and drops nothing, since after one
    application no group has two rules of the same identity hash. *)
Theorem deduplicateRules_idempotent (origin : list VMRule.t) :
  deduplicateRules (deduplicateRules origin).1
    = ((deduplicateRules origin).1, [])
  ∧ ∀ v g, v ∈ (deduplicateRules origin).1 →
           g ∈ VMRuleSpec.Groups (VMRule.Spec v) →
           NoDup (calculateRuleID <$> RuleGroup.Rules g).
Proof.
  rewrite deduplicateRules_fst. split.
  - unfold deduplicateRules at 1. apply mapLog_id.
    intros v Hv. apply dedupVMRule_NoDup_id.
    intros g Hg. by apply (dedupSpec_NoDup origin v).
  - apply dedupSpec_NoDup.
Qed.

Example deduplicateRules_repeated :
  deduplicateRules [repeatedSource] =
    ([ VMRule.set_Spec
         (VMRuleSpec.mk
            [ RuleGroup.mk "g1" "30s" [ruleDown; ruleRate];
              RuleGroup.mk "g2" "30s" [ruleDownAgain] ])
         repeatedSource ],
     [ Info "duplicate rule=%q found at group=%q for vmrule=%q"
            ["up == 0"; "g1"; "r1"] ]).
Proof. by vm_compute. Qed.

(** ** The renderer *)

Section renderer_proofs.
Context `{!API}.

(** C6: with a non-empty enforced namespace label, [generateContent]
    marshals the rule source in which every rule of every group has that
    label set to the namespace of the source, whatever value the rule
    carried for it; the other labels, the other fields, and the order of
    groups and rules are as before.  With the label [ns], a source in
    namespace [team-a] and a rule that carries [ns = other], the
    marshalled rule carries [ns = team-a]. *)
Theorem generateContent_enforces_namespace (promRule : VMRuleSpec.t)
    (enforcedNsLabel ns : string) :
  enforcedNsLabel ≠ EmptyString →
  (generateContent teamSpec "ns" "team-a").1
    = VMRuleSpec.mk
        [ RuleGroup.mk "availability" "30s"
            [ Rule.set_Labels {[ "ns" := "team-a" ]} teamRule ] ]
  ∧ ∃ rendered,
    generateContent promRule enforcedNsLabel ns
      = (rendered,
         match yaml_Marshal rendered with
         | inl content => inl content
         | inr err =>
             inr (Errorf "cannot unmarshal context for cm rule generation: %w"
                         [] err)
         end)
    ∧ Forall2
        (λ g g',
           RuleGroup.Name g' = RuleGroup.Name g
           ∧ RuleGroup.Interval g' = RuleGroup.Interval g
           ∧ Forall2
               (λ r r',
                  Rule.Labels r' = <[enforcedNsLabel := ns]> (Rule.Labels r)
                  ∧ Rule.Labels r' !! enforcedNsLabel = Some ns
                  ∧ (∀ k, k ≠ enforcedNsLabel →
                          Rule.Labels r' !! k = Rule.Labels r !! k)
                  ∧ Rule.Record_ r' = Rule.Record_ r
                  ∧ Rule.Alert r' = Rule.Alert r
                  ∧ Rule.Expr r' = Rule.Expr r
                  ∧ Rule.For r' = Rule.For r
                  ∧ Rule.Annotations r' = Rule.Annotations r)
               (RuleGroup.Rules g) (RuleGroup.Rules g'))
        (VMRuleSpec.Groups promRule) (VMRuleSpec.Groups rendered).
Proof.
  intros Hlbl. split.
  { unfold generateContent.
    destruct (yaml_Marshal (enforceNamespaceLabel teamSpec "ns" "team-a"));
      by vm_compute. }
  exists (enforceNamespaceLabel promRule enforcedNsLabel ns). split.
  - unfold generateContent.
    by destruct (yaml_Marshal (enforceNamespaceLabel promRule enforcedNsLabel ns)).
  - unfold enforceNamespaceLabel. rewrite bool_decide_true by done. simpl.
    apply Forall2_fmap_r, Forall_Forall2_diag, Forall_forall.
    intros g _. simpl. split; [done|]. split; [done|].
    apply Forall2_fmap_r, Forall_Forall2_diag, Forall_forall.
    intros r _. simpl. split; [done|]. split; [apply lookup_insert_eq|].
    split; [|done]. intros k Hk. by apply lookup_insert_ne.
Qed.

(** With an empty enforced label the rule source is marshalled as it
    is. *)
Lemma generateContent_disabled (promRule : VMRuleSpec.t) (ns : string) :
  (generateContent promRule EmptyString ns).1 = promRule.
Proof.
  unfold generateContent, enforceNamespaceLabel. simpl.
  by destruct (yaml_Marshal promRule).
Qed.

End renderer_proofs.

Lemma generateContent_enforces_namespace_witness :
  ∃ rendered,
    @generateContent (exampleAPI 524288) teamSpec "ns" "team-a"
      = (rendered, inl "ns=team-a")
    ∧ Forall (λ g, Forall (λ r, Rule.Labels r !! "ns" = Some "team-a")
                          (RuleGroup.Rules g))
             (VMRuleSpec.Groups rendered).
Proof.
  destruct (@generateContent_enforces_namespace (exampleAPI 524288)
              teamSpec "ns" "team-a") as (Hex & rendered & Heq & Hall); [done|].
  exists rendered. split.
  - rewrite Heq in Hex. simpl in Hex. rewrite Heq, Hex. by vm_compute.
  - eapply Forall2_Forall_r; [exact Hall|].
    apply Forall_forall. intros g' _ g (_ & _ & Hrules).
    eapply Forall2_Forall_r; [exact Hrules|].
    apply Forall_forall. intros r' _ r (_ & Hl & _). exact Hl.
Defined.

(** ** The differ *)

Lemma existingFor_cons cur currentCMs desired :
  existingFor (cur :: currentCMs) desired =
    if bool_decide (ConfigMap.Name desired = ConfigMap.Name cur)
    then Some cur
    else existingFor currentCMs desired.
Proof.
  unfold existingFor. simpl. case_decide.
  - by rewrite bool_decide_true.
  - rewrite bool_decide_false by done.
    by destruct (list_find _ currentCMs) as [[? ?]|].
Qed.

Lemma existingFor_Some currentCMs desired existing :
  existingFor currentCMs desired = Some existing →
  existing ∈ currentCMs ∧ ConfigMap.Name desired = ConfigMap.Name existing.
Proof.
  induction currentCMs as [|cur currentCMs IH]; [done|].
  rewrite existingFor_cons. case_bool_decide.
  - intros [= <-]. split; [by left|done].
  - intros [??]%IH. split; [by right|done].
Qed.

Lemma existingFor_None currentCMs desired :
  existingFor currentCMs desired = None ↔
  ∀ cur, cur ∈ currentCMs → ConfigMap.Name desired ≠ ConfigMap.Name cur.
Proof.
  induction currentCMs as [|cur currentCMs IH].
  - split; [|done]. intros _ cur Hcur. by apply elem_of_nil in Hcur.
  - rewrite existingFor_cons. case_bool_decide as Hname.
    + split; [done|]. intros Hall. destruct (Hall cur); [by left|done].
    + rewrite IH. split.
      * intros Hall c [->|Hc]%elem_of_cons; auto.
      * intros Hall c Hc. apply Hall. by right.
Qed.

(** The inner loop computes the decision. *)
Lemma diffAgainst_classify newCM currentCMs :
  diffAgainst newCM currentCMs =
    match classify currentCMs newCM with
    | Create => (false, [])
    | NoOp => (true, [])
    | Update cm => (true, [cm])
    end.
Proof.
  unfold classify.
  induction currentCMs as [|cur currentCMs IH]; [done|].
  rewrite existingFor_cons. simpl. case_bool_decide as Hname; [|done].
  unfold DeepEqual, labels_Merge. simpl.
  destruct (decide (ConfigMap.Data newCM = ConfigMap.Data cur)) as [Hd|Hd];
    destruct (decide (ConfigMap.Labels newCM = ConfigMap.Labels cur)) as [Hl|Hl];
    destruct (decide (ConfigMap.Annotations newCM ∪ ConfigMap.Annotations cur
                      = ConfigMap.Annotations cur)) as [Ha|Ha];
    repeat first [ rewrite (bool_decide_true (_ = _)) by done
                 | rewrite (bool_decide_false (_ = _)) by done ];
    simpl;
    first [ rewrite (bool_decide_true (_ ∧ _)) by done
          | rewrite (bool_decide_false (_ ∧ _)) by tauto ];
    done.
Qed.

Lemma foldl_diffStep currentCMs newCMs : ∀ toCreate toUpdate,
  foldl (diffStep currentCMs) (toCreate, toUpdate) newCMs =
    (toCreate ++ filter (λ d, isCreate currentCMs d) newCMs,
     toUpdate ++ omap (updateOf currentCMs) newCMs).
Proof.
  induction newCMs as [|newCM newCMs IH]; intros toCreate toUpdate; simpl.
  { by rewrite !app_nil_r. }
  rewrite diffAgainst_classify, filter_cons. unfold isCreate, updateOf.
  destruct (classify currentCMs newCM) as [|cm|]; simpl; rewrite IH.
  - by rewrite app_nil_r, <-(assoc_L (++)).
  - by rewrite <-(assoc_L (++)).
  - by rewrite app_nil_r.
Qed.

(** C8: [rulesCMDiff] returns as [toCreate] the desired objects that no
    current object matches by name, and as [toUpdate], for the desired
    objects with a match that differ from it in data, labels or merged
    annotations, the desired object with the merged annotations (the
    desired values win) and the finalizers of the existing object; a
    desired object equal to its match in data, labels and merged
    annotations is in neither list, and so is every current object that
    no desired object names. *)
Theorem rulesCMDiff_classifies (currentCMs newCMs : list ConfigMap.t) :
  rulesCMDiff currentCMs newCMs =
    (filter (λ d, isCreate currentCMs d) newCMs,
     omap (updateOf currentCMs) newCMs)
  ∧ (∀ d, classify currentCMs d = Create ↔
          ∀ cur, cur ∈ currentCMs → ConfigMap.Name d ≠ ConfigMap.Name cur)
  ∧ (∀ d existing,
       existingFor currentCMs d = Some existing →
       existing ∈ currentCMs
       ∧ ConfigMap.Name d = ConfigMap.Name existing
       ∧ (∀ k, (ConfigMap.Annotations d ∪ ConfigMap.Annotations existing) !! k
               = match ConfigMap.Annotations d !! k with
                 | Some v => Some v
                 | None => ConfigMap.Annotations existing !! k
                 end)
       ∧ (ConfigMap.Data d = ConfigMap.Data existing
          ∧ ConfigMap.Labels d = ConfigMap.Labels existing
          ∧ ConfigMap.Annotations d ∪ ConfigMap.Annotations existing
            = ConfigMap.Annotations existing
          → classify currentCMs d = NoOp)
       ∧ (¬ (ConfigMap.Data d = ConfigMap.Data existing
             ∧ ConfigMap.Labels d = ConfigMap.Labels existing
             ∧ ConfigMap.Annotations d ∪ ConfigMap.Annotations existing
               = ConfigMap.Annotations existing)
          → ∃ cm, classify currentCMs d = Update cm
                  ∧ ConfigMap.Name cm = ConfigMap.Name d
                  ∧ ConfigMap.Data cm = ConfigMap.Data d
                  ∧ ConfigMap.Labels cm = ConfigMap.Labels d
                  ∧ ConfigMap.Annotations cm
                    = ConfigMap.Annotations d ∪ ConfigMap.Annotations existing
                  ∧ ConfigMap.Finalizers cm = ConfigMap.Finalizers existing))
  ∧ (∀ cur cm,
       cur ∈ currentCMs →
       (∀ d, d ∈ newCMs → ConfigMap.Name d ≠ ConfigMap.Name cur) →
       cm ∈ (rulesCMDiff currentCMs newCMs).1
       ∨ cm ∈ (rulesCMDiff currentCMs newCMs).2 →
       ConfigMap.Name cm ≠ ConfigMap.Name cur).
Proof.
  assert (rulesCMDiff currentCMs newCMs =
            (filter (λ d, isCreate currentCMs d) newCMs,
             omap (updateOf currentCMs) newCMs)) as Hdiff.
  { unfold rulesCMDiff. case_bool_decide as Hnew.
    { by apply nil_length_inv in Hnew as ->. }
    case_bool_decide as Hcur; [|by rewrite foldl_diffStep].
    apply nil_length_inv in Hcur as ->. f_equal.
    - clear. induction newCMs as [|d newCMs IH]; [done|].
      rewrite filter_cons_True; [by rewrite <-IH|done].
    - clear. induction newCMs as [|d newCMs IH]; [done|]. by simpl. }
  split; [done|]. split; [|split].
  - intros d. rewrite <-existingFor_None. unfold classify.
    destruct (existingFor currentCMs d); [|done].
    split; [|done]. by case_bool_decide.
  - intros d existing Hex.
    destruct (existingFor_Some _ _ _ Hex) as [Hin Hname].
    split; [done|]. split; [done|]. split; [|split].
    + intros k. rewrite lookup_union.
      by destruct (ConfigMap.Annotations d !! k),
                  (ConfigMap.Annotations existing !! k).
    + intros Heq. unfold classify. rewrite Hex. simpl.
      by rewrite bool_decide_true.
    + intros Hne. unfold classify. rewrite Hex. simpl.
      rewrite bool_decide_false by done. eexists. split; [done|]. done.
  - intros cur cm Hcur Hnone. rewrite Hdiff. simpl.
    intros [Hin|Hin].
    + apply list_elem_of_filter in Hin as [_ Hin]. by apply Hnone.
    + apply list_elem_of_omap in Hin as (d & Hd & Hup).
      unfold updateOf, classify in Hup.
      destruct (existingFor currentCMs d) as [existing|]; [|done].
      simpl in Hup. case_bool_decide; [done|]. simplify_eq. simpl.
      by apply Hnone.
Qed.

Example rulesCMDiff_example :
  rulesCMDiff [storedCM; orphanCM] [desiredCM0; desiredCM1] =
    ([desiredCM1],
     [ ConfigMap.set_Finalizers ["other/finalizer"]
         (ConfigMap.set_Annotations {[ "note" := "kept" ]} desiredCM0) ])
  ∧ rulesCMDiff [storedCM; orphanCM]
      [ConfigMap.set_Annotations {[ "note" := "kept" ]}
         (ConfigMap.mk "vm-example-rulefiles-0" "default"
            {[ "managed-by" := "vm-operator" ]} ∅ [] [] {[ "a.yaml" := "old" ]})]
    = ([], []).
Proof. split; by vm_compute. Qed.

(** ** Selection, rendering and the fallback file *)

Section controller_proofs.
Context `{!API} {W : Type} `{!Client W}.

(** The loop never has a valid rule source without a file for it, and
    every rule source ends up valid or bad. *)
Lemma renderRules_partition cr vmRules : ∀ acc,
  (acc.1.1 = ∅ → acc.1.2 = []) →
  ((foldl (renderRule cr) acc vmRules).1.1 = ∅ →
   (foldl (renderRule cr) acc vmRules).1.2 = [])
  ∧ length (foldl (renderRule cr) acc vmRules).1.2
    + length (foldl (renderRule cr) acc vmRules).2
    = length acc.1.2 + length acc.2 + length vmRules.
Proof.
  induction vmRules as [|pRule vmRules IH]; intros [[rules valid] bad] Hacc.
  { simpl in *. split; [done|lia]. }
  cbn [foldl]. destruct (renderRule cr (rules, valid, bad) pRule)
    as [[rules' valid'] bad'] eqn:Hstep.
  destruct (IH (rules', valid', bad')) as [Hempty Hlen].
  - unfold renderRule in Hstep.
    destruct (Validate pRule); [by simplify_eq/=|].
    destruct (generateContent _ _ _) as [spec [content|err]]; simplify_eq/=.
    + intros Hins. by apply insert_non_empty in Hins.
    + done.
  - split; [done|]. rewrite Hlen. simpl.
    unfold renderRule in Hstep.
    destruct (Validate pRule); [simplify_eq/=; rewrite length_app; simpl; lia|].
    destruct (generateContent _ _ _) as [spec [content|err]]; simplify_eq/=;
      rewrite length_app; simpl; lia.
Qed.

(** The fallback file alone makes exactly one ConfigMap, when it fits
    under the cap. *)
Lemma makeRulesConfigMaps_singleton cr f c :
  (len c ≤ MaxConfigMapDataSize < 2 ^ 63)%Z →
  makeRulesConfigMaps cr {[ f := c ]} =
    Some [ ConfigMap.set_Name (ruleConfigMapName (VMAlert.Name cr) +:+ "-" +:+ Itoa 0)
             (makeRulesConfigMap cr {[ f := c ]}) ].
Proof.
  intros Hcap. unfold makeRulesConfigMaps, makeBuckets.
  assert (fileNames {[ f := c ]} = [f]) as ->.
  { apply Permutation_singleton_r.
    rewrite fileNames_Permutation, map_to_list_singleton. done. }
  change (packFiles {[f := c]} ([∅], 0) [f])
    with (packFile {[f := c]} ([∅], 0) f ≫= λ st, Some st).
  rewrite (packFile_step _ _ _ ∅) by done.
  rewrite lookup_singleton_eq. simpl.
  rewrite bucketSize_empty. unfold int_add.
  pose proof (len_nonneg c).
  rewrite wrap_int_small by lia.
  rewrite bool_decide_false by lia. simpl. by rewrite insert_empty.
Qed.

Lemma dedupIfNeeded_run cr vmRules (s : State W) :
  ∃ s', dedupIfNeeded cr vmRules s
        = (Ok (if NeedDedupRules cr then (deduplicateRules vmRules).1
               else vmRules), s')
        ∧ world s' = world s
        ∧ badConfigsTotal s' = badConfigsTotal s.
Proof.
  unfold dedupIfNeeded. destruct (NeedDedupRules cr).
  - unfold bind, log, emit, ret. simpl.
    destruct (deduplicateRules vmRules) as [out dups]. simpl. eauto.
  - unfold ret. eauto.
Qed.

Lemma renderAndReport_fallback cr names vmRules (s : State W) :
  (renderRules cr vmRules).1.1 = ∅ →
  badConfigsTotal (renderAndReport cr names vmRules s).2
    = badConfigsTotal s ++ [length (renderRules cr vmRules).2]
  ∧ ∀ rules, (renderAndReport cr names vmRules s).1 = Ok rules →
             rules = {[ "default-vmalert.yaml" := defAlert ]}.
Proof.
  intros Hempty. unfold renderAndReport.
  destruct (renderRules cr vmRules) as [[rules valid] bad].
  simpl in Hempty. subst rules.
  unfold bind, badConfigsTotal_Add, call, fail, ret, log. simpl.
  destruct (StatusForChildObjects _ valid _) as [[err|] w2]; simpl; [done|].
  destruct (StatusForChildObjects _ bad _) as [[err|] w3]; simpl; [done|].
  case_bool_decide; simpl; split; try done; by intros rules [= <-].
Qed.

(** C7: when no selected rule source yields a file, the map that
    [selectRulesUpdateStatus] returns is exactly the fallback file
    [default-vmalert.yaml] with the default alert, and it is packed into
    exactly one ConfigMap.  The partition is as the loop left it: no
    valid source, every source bad, and the bad-object counter is
    increased by the number of bad sources. *)
Theorem fallback_rule_injected (cr : VMAlert.t) (s : State W)
    (lists : list (list VMRule.t)) (w1 : W) (vmRules : list VMRule.t) :
  (len defAlert ≤ MaxConfigMapDataSize < 2 ^ 63)%Z →
  VisitObjectsForSelectorsAtNs cr (world s) = (inl lists, w1) →
  vmRules = (if NeedDedupRules cr
             then (deduplicateRules (foldl visitList ([], []) lists).1).1
             else (foldl visitList ([], []) lists).1) →
  (renderRules cr vmRules).1.1 = ∅ →
  (renderRules cr vmRules).1.2 = []
  ∧ length (renderRules cr vmRules).2 = length vmRules
  ∧ badConfigsTotal (selectRulesUpdateStatus cr s).2
    = badConfigsTotal s ++ [length vmRules]
  ∧ (∀ rules, (selectRulesUpdateStatus cr s).1 = Ok rules →
              rules = {[ "default-vmalert.yaml" := defAlert ]})
  ∧ ∃ cm,
      makeRulesConfigMaps cr {[ "default-vmalert.yaml" := defAlert ]} = Some [cm]
      ∧ ConfigMap.Data cm = {[ "default-vmalert.yaml" := defAlert ]}
      ∧ ConfigMap.Name cm = ruleConfigMapName (VMAlert.Name cr) +:+ "-0".
Proof.
  intros Hcap Hvisit HvmRules Hempty.
  destruct (renderRules_partition cr vmRules (∅, [], [])) as [Hvalid Hlen];
    [done|].
  fold (renderRules cr vmRules) in Hvalid, Hlen.
  specialize (Hvalid Hempty). rewrite Hvalid in Hlen. simpl in Hlen.
  split; [done|]. split; [done|].
  assert (badConfigsTotal (selectRulesUpdateStatus cr s).2
            = badConfigsTotal s ++ [length vmRules]
          ∧ ∀ rules, (selectRulesUpdateStatus cr s).1 = Ok rules →
                     rules = {[ "default-vmalert.yaml" := defAlert ]})
    as [Hcount Hrules].
  { destruct (foldl visitList ([], []) lists) as [selected names] eqn:Hsel.
    simpl in HvmRules.
    destruct (dedupIfNeeded_run cr selected
                (mkState w1 (logs s) (badConfigsTotal s)))
      as (s2 & Hrun & _ & Hs2).
    assert (selectRulesUpdateStatus cr s = renderAndReport cr names vmRules s2)
      as ->.
    { unfold selectRulesUpdateStatus, bind, call. rewrite Hvisit, Hsel.
      rewrite Hrun. by rewrite <-HvmRules. }
    destruct (renderAndReport_fallback cr names vmRules s2 Hempty) as [Hc Hr].
    rewrite Hc, Hs2, Hlen. done. }
  split; [done|]. split; [done|].
  eexists. split; [by apply makeRulesConfigMaps_singleton|].
  split; reflexivity.
Qed.

(** ** The applier *)

Lemma getCurrentCMs_length newConfigMaps : ∀ idx currentCMs (s : State W) r s',
  getCurrentCMs idx newConfigMaps currentCMs s = (Ok r, s') →
  length r = length currentCMs.
Proof.
  induction newConfigMaps as [|cm newConfigMaps IH];
    intros idx currentCMs s r s' Hrun; simpl in Hrun.
  { unfold ret in Hrun. by simplify_eq. }
  unfold bind, call in Hrun.
  destruct (client_Get _ _ _) as [[existCM|err] w]; simpl in Hrun.
  - case_bool_decide; [|done].
    apply IH in Hrun. by rewrite length_insert in Hrun.
  - destruct (IsNotFound err); [by apply IH in Hrun|done].
Qed.

Lemma makeRulesConfigMaps_nonempty cr ruleFiles cms :
  makeRulesConfigMaps cr ruleFiles = Some cms → 0 < length cms.
Proof.
  intros Hcms.
  destruct (makeBuckets_packInv ruleFiles) as (buckets & idx & Hb & Hinv).
  destruct (makeRulesConfigMaps_Data cr ruleFiles buckets Hb) as (cms' & Hcms' & HD).
  simplify_eq. apply inv_curr in Hinv. simpl in Hinv.
  rewrite length_fmap in Hinv. lia.
Qed.

(** The slice of current ConfigMaps is made with the length of the
    desired ones, which is never zero: the test of the fast path always
    fails, and a run is the run of the program without that branch. *)
Lemma fast_path_unreachable cr (s : State W) :
  IsUnmanaged cr = false →
  CreateOrUpdateRuleConfigMaps cr s =
    (let* newRules := selectRulesUpdateStatus cr in
     let* newConfigMaps := orPanic (makeRulesConfigMaps cr newRules) in
     let* currentCMs :=
       getCurrentCMs 0 newConfigMaps
         (replicate (length newConfigMaps) ConfigMap.zero) in
     diffAndApply cr currentCMs newConfigMaps (ConfigMap.Name <$> newConfigMaps)) s.
Proof.
  intros Hmanaged. unfold CreateOrUpdateRuleConfigMaps. rewrite Hmanaged.
  unfold bind at 1 4.
  destruct (selectRulesUpdateStatus cr s) as [[newRules|err|] s1]; [|done..].
  unfold bind at 1 3, orPanic.
  destruct (makeRulesConfigMaps cr newRules) as [newConfigMaps|] eqn:Hcms;
    [|done].
  unfold ret at 1 2. unfold bind.
  destruct (getCurrentCMs 0 newConfigMaps _ s1) as [[currentCMs|err|] s2] eqn:Hget;
    [|done..].
  apply getCurrentCMs_length in Hget. rewrite length_replicate in Hget.
  apply makeRulesConfigMaps_nonempty in Hcms.
  rewrite bool_decide_false by lia. done.
Qed.

(** When the API server has none of the desired ConfigMaps, the slice of
    current ConfigMaps holds zero values only. *)
Lemma getCurrentCMs_none newConfigMaps : ∀ idx currentCMs (s : State W),
  (∀ ns name w, (client_Get ns name w).1 = inr ErrNotFound) →
  ∃ s', getCurrentCMs idx newConfigMaps currentCMs s = (Ok currentCMs, s')
        ∧ logs s' = logs s.
Proof.
  induction newConfigMaps as [|cm newConfigMaps IH];
    intros idx currentCMs s Hnone; simpl.
  { unfold ret. eauto. }
  unfold bind, call.
  pose proof (Hnone (ConfigMap.Namespace cm) (ConfigMap.Name cm) (world s))
    as Hget.
  destruct (client_Get _ _ _) as [got w]. simpl in Hget. subst got. simpl.
  destruct (IH (S idx) currentCMs (mkState w (logs s) (badConfigsTotal s)) Hnone)
    as (s' & -> & Hlogs).
  eauto.
Qed.

End controller_proofs.

Lemma fallback_rule_injected_witness :
  badConfigsTotal
    (@selectRulesUpdateStatus (exampleAPI 524288) Cluster memClient exampleCR
       (mkState invalidCluster [] [])).2 = [1]
  ∧ (@selectRulesUpdateStatus (exampleAPI 524288) Cluster memClient exampleCR
       (mkState invalidCluster [] [])).1
    = Ok {[ "default-vmalert.yaml" := defAlert ]}.
Proof.
  destruct (@fallback_rule_injected (exampleAPI 524288) Cluster memClient
              exampleCR (mkState invalidCluster [] [])
              [[invalidSource]] invalidCluster [invalidSource])
    as (_ & _ & Hcount & Hrules & _).
  - by vm_compute.
  - reflexivity.
  - by vm_compute.
  - by vm_compute.
  - split; [exact Hcount|].
    destruct (@selectRulesUpdateStatus _ _ _ _ _).1 as [rules| |] eqn:Hrun.
    + by rewrite (Hrules rules).
    + by vm_compute in Hrun.
    + by vm_compute in Hrun.
Defined.

(** C9, on the code: on a cluster with no ConfigMap at all, the run does
    not take the fast path.  It goes through the diff, creates the
    ConfigMap as an additional one and triggers a reload of the pods,
    whereas the fast path would have created it as a new one and
    triggered nothing. *)
Theorem fast_path_not_taken :
  (@CreateOrUpdateRuleConfigMaps (exampleAPI 524288) Cluster memClient
     exampleCR freshRun).1 = Ok ["vm-example-rulefiles-0"]
  ∧ logs (@CreateOrUpdateRuleConfigMaps (exampleAPI 524288) Cluster memClient
            exampleCR freshRun).2
    = [ Info "deduplicating vmalert rules" [];
        Info "creating additional configmap=%s for rules" ["vm-example-rulefiles-0"];
        Info "triggering pod config reload by changing annotation" [] ]
  ∧ podReloads (world (@CreateOrUpdateRuleConfigMaps (exampleAPI 524288)
                         Cluster memClient exampleCR freshRun).2) = 1
  ∧ ∃ newRules s1 newConfigMaps,
      @selectRulesUpdateStatus (exampleAPI 524288) Cluster memClient
        exampleCR freshRun = (Ok newRules, s1)
      ∧ @makeRulesConfigMaps (exampleAPI 524288) exampleCR newRules
        = Some newConfigMaps
      ∧ logs (fastPath newConfigMaps (ConfigMap.Name <$> newConfigMaps) s1).2
        = [ Info "deduplicating vmalert rules" [];
            Info "creating new ConfigMap %s for rules" ["vm-example-rulefiles-0"] ]
      ∧ podReloads
          (world (fastPath newConfigMaps (ConfigMap.Name <$> newConfigMaps) s1).2)
        = 0.
Proof.
  split; [by vm_compute|]. split; [by vm_compute|]. split; [by vm_compute|].
  eexists _, _, _. split; [by vm_compute|]. split; [by vm_compute|].
  split; by vm_compute.
Qed.

(** * Further properties of the code *)

(** ** [bucketSize] *)

Lemma sumLen_Permutation l1 l2 : l1 ≡ₚ l2 → sumLen l1 = sumLen l2.
Proof.
  induction 1 as [|x l1 l2 _ IH|x y l|l1 l2 l3 _ IH1 _ IH2]; simpl;
    [done|by rewrite IH|lia|congruence].
Qed.

Lemma sumLen_nonneg l : (0 ≤ sumLen l)%Z.
Proof.
  induction l as [|v l IH]; simpl; [done|]. pose proof (len_nonneg v). lia.
Qed.

Lemma foldl_int_add l : ∀ a,
  foldl (λ totalSize v, int_add totalSize (len v)) (wrap_int a) l
  = wrap_int (a + sumLen l).
Proof.
  induction l as [|v l IH]; intros a; simpl.
  { f_equal. lia. }
  unfold int_add at 2. rewrite wrap_int_add_l, IH. f_equal. lia.
Qed.

Lemma bucketSize_wrap_sum (bucket : gmap string string) :
  bucketSize bucket = wrap_int (sumLen (map_to_list bucket).*2).
Proof.
  induction bucket as [|f c bucket Hf IH] using map_ind.
  { by rewrite bucketSize_empty, map_to_list_empty. }
  rewrite bucketSize_insert, IH by done.
  rewrite (sumLen_Permutation (map_to_list (<[f := c]> bucket)).*2
                              (c :: (map_to_list bucket).*2)).
  - simpl. unfold int_add. rewrite wrap_int_add_l. f_equal. lia.
  - by rewrite map_to_list_insert.
Qed.

(** X1: whatever order [range] yields the contents of a bucket in, the
    loop of [bucketSize] computes the same number: the sum of the content
    lengths wrapped to an [int], which is the sum itself when it is
    below 2^63. *)
Theorem bucketSize_range_order (bucket : gmap string string)
    (ranged : list string) :
  ranged ≡ₚ (map_to_list bucket).*2 →
  bucketSize_from ranged = bucketSize bucket
  ∧ bucketSize bucket = wrap_int (sumLen ranged)
  ∧ ((sumLen ranged < 2 ^ 63)%Z → bucketSize bucket = sumLen ranged).
Proof.
  intros Hp.
  assert (bucketSize bucket = wrap_int (sumLen ranged)) as Hsum.
  { rewrite bucketSize_wrap_sum. f_equal. by apply sumLen_Permutation. }
  split; [|split; [done|]].
  - rewrite Hsum. unfold bucketSize_from.
    change 0%Z with (wrap_int 0) at 1. by rewrite foldl_int_add.
  - intros Hlt. rewrite Hsum. apply wrap_int_small.
    pose proof (sumLen_nonneg ranged). lia.
Qed.

Lemma bucketSize_range_order_witness :
  bucketSize_from ["bb"; "aaaaaa"]
  = bucketSize (<["a" := "aaaaaa"]> (<["b" := "bb"]> ∅))
  ∧ bucketSize (<["a" := "aaaaaa"]> (<["b" := "bb"]> ∅)) = 8%Z.
Proof.
  destruct (bucketSize_range_order
              (<["a" := "aaaaaa"]> (<["b" := "bb"]> ∅)) ["bb"; "aaaaaa"])
    as (H1 & H2 & H3).
  - rewrite map_to_list_insert by done.
    rewrite map_to_list_insert by done.
    rewrite map_to_list_empty. simpl. apply Permutation_swap.
  - split; [exact H1|]. rewrite H3; by vm_compute.
Defined.

(** ** The shape of the buckets *)

Section packer_shape.
Context `{!API}.

Lemma packShape_init ruleFiles :
  packShape MaxConfigMapDataSize ruleFiles [] ([∅], 0).
Proof.
  split; simpl.
  - intros [|i] b Hi Hb; [lia|done].
  - by left.
  - intros [|i] [|j] bi bj f g Hij Hi Hj; simplify_eq/=; lia.
  - intros [|i] b b' Hb Hb'; by simplify_eq/=.
Qed.

Lemma packFile_packShape ruleFiles processed st f c :
  packInv ruleFiles processed st →
  packShape MaxConfigMapDataSize ruleFiles processed st →
  (∀ g, g ∈ processed → String.le g f ∧ g ≠ f) →
  ruleFiles !! f = Some c →
  ∃ st', packFile ruleFiles st f = Some st'
         ∧ packShape MaxConfigMapDataSize ruleFiles (processed ++ [f]) st'.
Proof.
  destruct st as [buckets idx]. intros Hinv Hshape Hle Hc.
  destruct (packInv_last _ _ _ _ Hinv) as [curr Hcurr].
  destruct Hinv as [Hcur Hsound _ _].
  destruct Hshape as [Hne Hfirst Hord Htight]. simpl in *.
  assert (∀ i b g, buckets !! i = Some b → is_Some (b !! g) →
            String.le g f ∧ g ≠ f) as Hold.
  { intros i b g Hb [x Hx]. apply Hle. by destruct (Hsound _ _ _ _ Hb Hx). }
  assert (processed = [] → curr = ∅) as Hempty.
  { intros ->. apply map_empty. intros k.
    destruct (curr !! k) as [x|] eqn:Hk; [|done].
    by destruct (Hsound _ _ _ _ Hcurr Hk) as [?%elem_of_nil _]. }
  eexists. split; [by apply packFile_step|].
  rewrite Hc. simpl. case_bool_decide as Hover.
  - (* a new bucket is opened *)
    split; simpl.
    + intros i b Hi Hb. apply lookup_app_Some in Hb as [Hb|[_ Hb]].
      * by eapply Hne.
      * apply list_lookup_singleton_Some in Hb as [_ <-].
        apply insert_non_empty.
    + intros H0. rewrite lookup_app_l in H0 by lia.
      destruct (Hfirst H0) as [->|?]; [|by right].
      right. exists f, c. split; [done|].
      rewrite (Hempty eq_refl) in Hover. by rewrite bucketSize_empty in Hover.
    + intros i j bi bj f' g Hij Hi Hj Hf' Hg.
      apply lookup_app_Some in Hi as [Hi|[Hil Hi]];
        apply lookup_app_Some in Hj as [Hj|[Hjl Hj]].
      * by apply (Hord i j bi bj f' g).
      * apply list_lookup_singleton_Some in Hj as [_ <-].
        destruct Hg as [x Hx]. apply lookup_singleton_Some in Hx as [<- _].
        by eapply Hold.
      * apply lookup_lt_Some in Hj. lia.
      * apply list_lookup_singleton_Some in Hi as [? _].
        apply list_lookup_singleton_Some in Hj as [? _]. lia.
    + intros i b b' Hb Hb'.
      apply lookup_app_Some in Hb' as [Hb'|[Hil Hb']].
      * apply lookup_app_Some in Hb as [Hb|[Hl _]]; [by eapply Htight|].
        apply lookup_lt_Some in Hb'. lia.
      * apply list_lookup_singleton_Some in Hb' as [Hi <-].
        assert (i = idx) as -> by lia.
        rewrite lookup_app_l in Hb by lia. simplify_eq.
        exists f, c. split; [apply lookup_singleton_eq|]. split; [|done].
        intros g [x Hx]. by apply lookup_singleton_Some in Hx as [<- _].
  - (* the file joins the current bucket *)
    assert (idx < length buckets) as Hlt by lia.
    split; simpl.
    + intros i b Hi Hb.
      apply list_lookup_insert_Some in Hb as [(-> & <- & _)|[_ Hb]].
      * apply insert_non_empty.
      * by eapply Hne.
    + intros H0.
      apply list_lookup_insert_Some in H0 as [(_ & H0 & _)|[Hidx H0]].
      * by apply insert_non_empty in H0.
      * destruct (Hfirst H0) as [->|?]; [|by right].
        destruct (Hne idx curr); [lia|done|by apply Hempty].
    + intros i j bi bj f' g Hij Hi Hj Hf' Hg.
      assert (j < length buckets) as Hj'.
      { apply lookup_lt_Some in Hj. by rewrite length_insert in Hj. }
      rewrite list_lookup_insert_ne in Hi by lia.
      apply list_lookup_insert_Some in Hj as [(-> & <- & _)|[_ Hj]].
      * destruct (decide (g = f)) as [->|Hgf]; [by eapply Hold|].
        rewrite lookup_insert_ne in Hg by done.
        by apply (Hord i j bi curr f' g).
      * by apply (Hord i j bi bj f' g).
    + intros i b b' Hb Hb'.
      assert (S i < length buckets) as Hi'.
      { apply lookup_lt_Some in Hb'. by rewrite length_insert in Hb'. }
      rewrite list_lookup_insert_ne in Hb by lia.
      apply list_lookup_insert_Some in Hb' as [(Hidx & <- & _)|[_ Hb']];
        [|by eapply Htight].
      subst idx. destruct (Htight i b curr Hb Hcurr) as (f0 & c0 & Hf0 & Hmin & Hsz).
      assert (f0 ≠ f) as Hne0. { by eapply Hold; [exact Hcurr|eauto]. }
      exists f0, c0. split; [by rewrite lookup_insert_ne|]. split; [|done].
      intros g Hg. destruct (decide (g = f)) as [->|Hgf].
      * by eapply Hold; [exact Hcurr|eauto].
      * rewrite lookup_insert_ne in Hg by done. by apply Hmin.
Qed.

Lemma packFiles_packShape ruleFiles names : ∀ processed st,
  packInv ruleFiles processed st →
  packShape MaxConfigMapDataSize ruleFiles processed st →
  NoDup (processed ++ names) →
  StronglySorted String.le (processed ++ names) →
  (∀ f, f ∈ names → is_Some (ruleFiles !! f)) →
  ∃ st', packFiles ruleFiles st names = Some st'
         ∧ packInv ruleFiles (processed ++ names) st'
         ∧ packShape MaxConfigMapDataSize ruleFiles (processed ++ names) st'.
Proof.
  induction names as [|f names IH];
    intros processed st Hinv Hshape Hnd Hsorted Hin; simpl.
  - exists st. by rewrite app_nil_r.
  - destruct (Hin f) as [c Hc]; [by left|].
    apply NoDup_app in Hnd as Hnd'. destruct Hnd' as (_ & Hdisj & _).
    assert (f ∉ processed) as Hf.
    { intros Hf. eapply Hdisj; [done|by left]. }
    destruct (packFile_packInv ruleFiles processed st f) as (st1 & Hst1 & Hinv1);
      [done|done|eauto|].
    destruct (packFile_packShape ruleFiles processed st f c)
      as (st1' & Hst1' & Hshape1); [done|done| |done|].
    { intros g Hg. split; [|by intros ->].
      eapply (StronglySorted_app_1_elem_of _ _ _ _ _ Hsorted); [done|by left]. }
    rewrite Hst1 in Hst1'. simplify_eq. rewrite Hst1. simpl.
    replace (processed ++ f :: names) with ((processed ++ [f]) ++ names) in *
      by (by rewrite <-(assoc_L (++))).
    apply IH; [done..|]. intros f' Hf'. apply Hin. by right.
Qed.

Lemma makeBuckets_packShape ruleFiles :
  ∃ buckets idx,
    makeBuckets ruleFiles = Some buckets
    ∧ packInv ruleFiles (fileNames ruleFiles) (buckets, idx)
    ∧ packShape MaxConfigMapDataSize ruleFiles (fileNames ruleFiles) (buckets, idx).
Proof.
  destruct (packFiles_packShape ruleFiles (fileNames ruleFiles) [] ([∅], 0))
    as ([buckets idx] & Hrun & Hinv & Hshape).
  - apply packInv_init.
  - apply packShape_init.
  - apply fileNames_NoDup.
  - apply fileNames_sorted.
  - intros f. by rewrite elem_of_fileNames.
  - exists buckets, idx. unfold makeBuckets. by rewrite Hrun.
Qed.

(** X2: the ConfigMaps hold consecutive runs of the sorted filenames:
    every file of an earlier ConfigMap comes strictly before every file
    of a later one. *)
Theorem makeRulesConfigMaps_runs (cr : VMAlert.t) (ruleFiles : gmap string string) :
  ∃ cms,
    makeRulesConfigMaps cr ruleFiles = Some cms
    ∧ ∀ i j cmi cmj f g,
        i < j → cms !! i = Some cmi → cms !! j = Some cmj →
        is_Some (ConfigMap.Data cmi !! f) → is_Some (ConfigMap.Data cmj !! g) →
        String.le f g ∧ f ≠ g.
Proof.
  destruct (makeBuckets_packShape ruleFiles) as (buckets & idx & Hb & _ & Hshape).
  destruct (makeRulesConfigMaps_Data cr ruleFiles buckets Hb) as (cms & Hcms & HD).
  exists cms. split; [done|]. intros i j cmi cmj f g Hij Hi Hj Hf Hg.
  apply (shape_order _ _ _ _ Hshape i j (ConfigMap.Data cmi) (ConfigMap.Data cmj));
    [done| | |done|done]; simpl; rewrite <-HD, list_lookup_fmap.
  - by rewrite Hi.
  - by rewrite Hj.
Qed.

(** X3: a ConfigMap is closed only when the next file does not fit: for
    two consecutive ConfigMaps, the size of the first plus the size of
    the smallest file of the second exceeds the cap. *)
Theorem makeRulesConfigMaps_tight (cr : VMAlert.t) (ruleFiles : gmap string string) :
  ∃ cms,
    makeRulesConfigMaps cr ruleFiles = Some cms
    ∧ ∀ i cm cm',
        cms !! i = Some cm → cms !! S i = Some cm' →
        ∃ f c,
          ConfigMap.Data cm' !! f = Some c
          ∧ (∀ g, is_Some (ConfigMap.Data cm' !! g) → String.le f g)
          ∧ (MaxConfigMapDataSize
             < int_add (bucketSize (ConfigMap.Data cm)) (len c))%Z.
Proof.
  destruct (makeBuckets_packShape ruleFiles) as (buckets & idx & Hb & _ & Hshape).
  destruct (makeRulesConfigMaps_Data cr ruleFiles buckets Hb) as (cms & Hcms & HD).
  exists cms. split; [done|]. intros i cm cm' Hi Hi'.
  apply (shape_tight _ _ _ _ Hshape i); simpl; rewrite <-HD, list_lookup_fmap.
  - by rewrite Hi.
  - by rewrite Hi'.
Qed.

(** X4: there is always at least one ConfigMap, and for an empty file map
    exactly one, without data.  No ConfigMap but the first is ever
    without data, and the first one is only when there is no file or
    when some file alone exceeds the cap. *)
Theorem makeRulesConfigMaps_empty_buckets (cr : VMAlert.t)
    (ruleFiles : gmap string string) :
  ∃ cm0 cms,
    makeRulesConfigMaps cr ruleFiles = Some (cm0 :: cms)
    ∧ (ruleFiles = ∅ → cms = [] ∧ ConfigMap.Data cm0 = ∅)
    ∧ (∀ cm, cm ∈ cms → ConfigMap.Data cm ≠ ∅)
    ∧ (ConfigMap.Data cm0 = ∅ →
       ruleFiles = ∅
       ∨ ∃ f c, ruleFiles !! f = Some c
                ∧ (MaxConfigMapDataSize < int_add 0 (len c))%Z).
Proof.
  destruct (makeBuckets_packShape ruleFiles)
    as (buckets & idx & Hb & Hinv & Hshape).
  destruct (makeRulesConfigMaps_Data cr ruleFiles buckets Hb) as (cms & Hcms & HD).
  pose proof (inv_curr _ _ _ Hinv) as Hlen. simpl in Hlen.
  destruct cms as [|cm0 cms]; [by subst buckets|].
  exists cm0, cms. split; [done|]. split; [|split].
  - intros ->.
    assert (∀ cm, cm ∈ cm0 :: cms → ConfigMap.Data cm = ∅) as Hall.
    { intros cm [j Hj]%list_elem_of_lookup. apply map_empty. intros k.
      destruct (ConfigMap.Data cm !! k) as [x|] eqn:Hk; [|done].
      destruct (inv_sound _ _ _ Hinv j (ConfigMap.Data cm) k x) as [_ Hx];
        [simpl; by rewrite <-HD, list_lookup_fmap, Hj|done|].
      by rewrite lookup_empty in Hx. }
    split; [|apply Hall; by left].
    destruct cms as [|cm1 cms]; [done|].
    destruct (shape_nonempty _ _ _ _ Hshape 1 (ConfigMap.Data cm1)); [lia| |].
    + simpl. by rewrite <-HD.
    + apply Hall. right. by left.
  - intros cm [j Hj]%list_elem_of_lookup.
    apply (shape_nonempty _ _ _ _ Hshape (S j)); [lia|].
    simpl. rewrite <-HD. simpl. by rewrite list_lookup_fmap, Hj.
  - intros H0. destruct (shape_first _ _ _ _ Hshape) as [Hnil|?]; [| |by right].
    + simpl. rewrite <-HD. simpl. by rewrite H0.
    + left. apply map_empty. intros k.
      destruct (ruleFiles !! k) as [x|] eqn:Hk; [|done].
      assert (k ∈ fileNames ruleFiles) as Hin by (apply elem_of_fileNames; eauto).
      rewrite Hnil in Hin. by apply elem_of_nil in Hin.
Qed.

End packer_shape.

(** ** The ConfigMaps built from the buckets *)

Section artifacts.
Context `{!API}.

(** X5: the ConfigMap of bucket [i] is named [vm-<name>-rulefiles-<i>]
    and lives in the namespace of the VMAlert; it carries the labels
    [vmalert-name] and [managed-by], the owner reference and the
    finalizer, and no annotation.  The names of the ConfigMaps of one
    VMAlert are pairwise distinct. *)
Theorem makeRulesConfigMaps_metadata (cr : VMAlert.t)
    (ruleFiles : gmap string string) :
  ∃ cms,
    makeRulesConfigMaps cr ruleFiles = Some cms
    ∧ (∀ i cm, cms !! i = Some cm →
         ConfigMap.Name cm = "vm-" +:+ VMAlert.Name cr +:+ "-rulefiles" +:+ "-" +:+ Itoa i
         ∧ ConfigMap.Namespace cm = VMAlert.Namespace cr
         ∧ ConfigMap.Labels cm !! "vmalert-name" = Some (VMAlert.Name cr)
         ∧ ConfigMap.Labels cm !! "managed-by" = Some "vm-operator"
         ∧ dom (ConfigMap.Labels cm) = {[ "vmalert-name"; "managed-by" ]}
         ∧ ConfigMap.Annotations cm = ∅
         ∧ ConfigMap.OwnerReferences cm = AsOwner cr
         ∧ ConfigMap.Finalizers cm = [FinalizerName])
    ∧ NoDup (ConfigMap.Name <$> cms).
Proof.
  destruct (makeBuckets_packInv ruleFiles) as (buckets & idx & Hb & _).
  unfold makeRulesConfigMaps. rewrite Hb. simpl. eexists. split; [done|].
  assert (∀ a b c : string, (a +:+ b) +:+ c = a +:+ (b +:+ c)) as Hassoc.
  { intros a b c. induction a as [|x a IH]; [done|].
    change (String x ((a +:+ b) +:+ c) = String x (a +:+ (b +:+ c))).
    by rewrite IH. }
  split.
  - intros i cm Hcm. rewrite list_lookup_imap in Hcm.
    destruct (buckets !! i) as [b|]; simplify_eq/=.
    unfold ruleConfigMapName. rewrite !Hassoc.
    split; [done|]. split; [done|].
    unfold managedByOperatorLabels, managedByOperatorLabel,
      managedByOperatorLabelValue.
    split; [|split; [|split]]; [| |set_solver|done].
    + rewrite lookup_union_r; [apply lookup_singleton_eq|].
      by apply lookup_singleton_ne.
    + apply lookup_union_Some_l, lookup_singleton_eq.
  - apply NoDup_alt. intros i j n Hi Hj.
    rewrite list_lookup_fmap, list_lookup_imap in Hi, Hj.
    destruct (buckets !! i) as [bi|]; [|done].
    destruct (buckets !! j) as [bj|]; [|done].
    by simplify_eq/=.
Qed.

(** X6: the buckets do not depend on the order in which [range] yields
    the filenames of the map. *)
Theorem makeBuckets_range_order (ruleFiles : gmap string string)
    (ranged : list string) :
  ranged ≡ₚ (map_to_list ruleFiles).*1 →
  fst <$> packFiles ruleFiles ([∅], 0) (fileNames_from ranged)
  = makeBuckets ruleFiles.
Proof.
  intros Hp. unfold makeBuckets, fileNames.
  by rewrite (fileNames_from_order ranged (map_to_list ruleFiles).*1).
Qed.

End artifacts.

Lemma makeBuckets_range_order_witness :
  fst <$> @packFiles (exampleAPI 8) threeFiles ([∅], 0)
            (fileNames_from (reverse (map_to_list threeFiles).*1))
  = @makeBuckets (exampleAPI 8) threeFiles.
Proof.
  apply (@makeBuckets_range_order (exampleAPI 8) threeFiles
           (reverse (map_to_list threeFiles).*1)).
  apply reverse_Permutation.
Defined.

(** ** The identity hash and [sortMap] *)

Lemma Write_range h data :
  (0 ≤ h < 2 ^ 64)%Z → (0 ≤ fnv.Write h data < 2 ^ 64)%Z.
Proof.
  revert h. induction data as [|c data IH]; intros h Hh; simpl; [done|].
  apply IH. unfold fnv.write_byte. apply Z.mod_pos_bound. lia.
Qed.

(** X7: the identity hash is a [uint64]. *)
Theorem calculateRuleID_range (r : Rule.t) :
  (0 ≤ calculateRuleID r < 2 ^ 64)%Z.
Proof.
  unfold calculateRuleID, calculateRuleID_from, fnv.Sum64.
  assert (0 ≤ ruleIDPrefix r < 2 ^ 64)%Z as Hp.
  { unfold ruleIDPrefix. case_bool_decide; repeat apply Write_range;
      by vm_compute. }
  revert Hp. generalize (ruleIDPrefix r) as h.
  induction (sortMap_from (map_to_list (Rule.Labels r))) as [|i kv IH];
    intros h Hh; simpl; [done|].
  apply IH. unfold writeItem. by repeat apply Write_range.
Qed.

(** X8: the identity of a rule is made of its expression, its labels and
    its record name, or its alert name when it has no record name.  The
    duration, the annotations, and the alert name of a rule that has a
    record name are no part of it. *)
Theorem calculateRuleID_fields (r r' : Rule.t) :
  Rule.Expr r = Rule.Expr r' →
  Rule.Record_ r = Rule.Record_ r' →
  (Rule.Record_ r = EmptyString → Rule.Alert r = Rule.Alert r') →
  Rule.Labels r = Rule.Labels r' →
  calculateRuleID r = calculateRuleID r'.
Proof.
  intros He Hr Ha Hl.
  unfold calculateRuleID, calculateRuleID_from, ruleIDPrefix.
  rewrite He, Hr, Hl. case_bool_decide as Hrec; [done|].
  rewrite Ha; [done|]. rewrite Hr.
  by destruct (decide (Rule.Record_ r' = EmptyString)).
Qed.

Lemma calculateRuleID_fields_witness :
  calculateRuleID ruleDown = calculateRuleID ruleDownAgain
  ∧ Rule.For ruleDown ≠ Rule.For ruleDownAgain
  ∧ Rule.Annotations ruleDown ≠ Rule.Annotations ruleDownAgain.
Proof.
  split; [|split].
  - by apply (calculateRuleID_fields ruleDown ruleDownAgain).
  - done.
  - intros Heq. apply (f_equal (λ m : gmap string string, m !! "summary")) in Heq.
    by vm_compute in Heq.
Defined.

(** X9: [sortMap] returns every entry of the map once, in strictly
    ascending order of the keys: turning the slice back into a map gives
    the map. *)
Theorem sortMap_entries (m : gmap string string) :
  list_to_map ((λ i, (key i, value i)) <$> sortMap m) = m
  ∧ length (sortMap m) = size m
  ∧ StronglySorted item_le (sortMap m)
  ∧ NoDup (key <$> sortMap m).
Proof.
  assert (((λ i, (key i, value i)) <$> sortMap m) ≡ₚ map_to_list m) as Hp.
  { unfold sortMap, sortMap_from. rewrite merge_sort_Permutation.
    rewrite <-list_fmap_compose.
    erewrite list_fmap_ext; [by rewrite list_fmap_id|].
    by intros i [k v] _. }
  assert (NoDup (key <$> sortMap m)) as Hnd.
  { replace (key <$> sortMap m)
      with (((λ i, (key i, value i)) <$> sortMap m).*1)
      by (by rewrite <-list_fmap_compose).
    rewrite Hp. apply NoDup_fst_map_to_list. }
  split; [|split; [|split]]; [| | |done].
  - rewrite <-(list_to_map_to_list m) at 2.
    apply list_to_map_proper; [|done].
    by rewrite <-list_fmap_compose.
  - by rewrite <-(length_fmap (λ i, (key i, value i))), Hp, length_map_to_list.
  - apply StronglySorted_merge_sort; apply _.
Qed.

(** ** The renderer and the selection *)

Section renderer_more.
Context `{!API}.

Lemma generateContent_fst promRule enforcedNsLabel ns :
  (generateContent promRule enforcedNsLabel ns).1
  = enforceNamespaceLabel promRule enforcedNsLabel ns.
Proof.
  unfold generateContent.
  by destruct (yaml_Marshal (enforceNamespaceLabel promRule enforcedNsLabel ns)).
Qed.

(** X10: rendering a rule source that was already rendered leaves it as
    if only the second rendering had taken place: the namespace written
    last wins, and rendering twice with the same namespace changes
    nothing more. *)
Theorem generateContent_twice (promRule : VMRuleSpec.t)
    (enforcedNsLabel ns1 ns2 : string) :
  (generateContent (generateContent promRule enforcedNsLabel ns1).1
                   enforcedNsLabel ns2).1
  = (generateContent promRule enforcedNsLabel ns2).1.
Proof.
  rewrite !generateContent_fst. unfold enforceNamespaceLabel.
  case_bool_decide; [|done]. simpl. f_equal.
  rewrite <-list_fmap_compose. apply list_fmap_ext. intros i g _. simpl.
  unfold RuleGroup.set_Rules. simpl. f_equal.
  rewrite <-list_fmap_compose. apply list_fmap_ext. intros j r _. simpl.
  unfold Rule.set_Labels. simpl. by rewrite insert_insert_eq.
Qed.



End renderer_more.

(** ** The differ, once more *)

Lemma existingFor_unique (l : list ConfigMap.t) (x d : ConfigMap.t) :
  NoDup (ConfigMap.Name <$> l) → x ∈ l →
  ConfigMap.Name d = ConfigMap.Name x →
  existingFor l d = Some x.
Proof.
  induction l as [|c l IH]; intros Hnd Hx Hname.
  { by apply elem_of_nil in Hx. }
  rewrite fmap_cons in Hnd. apply NoDup_cons in Hnd as [Hc Hnd].
  rewrite existingFor_cons. apply elem_of_cons in Hx as [->|Hx].
  - by rewrite bool_decide_true.
  - rewrite bool_decide_false; [by apply IH|].
    intros Heq. apply Hc. rewrite <-Heq, Hname. by apply list_elem_of_fmap_2.
Qed.

Lemma rulesCMDiff_filter_omap currentCMs newCMs :
  rulesCMDiff currentCMs newCMs =
    (filter (λ d, isCreate currentCMs d) newCMs,
     omap (updateOf currentCMs) newCMs).
Proof.
  unfold rulesCMDiff. case_bool_decide as Hnew.
  { by apply nil_length_inv in Hnew as ->. }
  case_bool_decide as Hcur; [|by rewrite foldl_diffStep].
  apply nil_length_inv in Hcur as ->. f_equal.
  - clear. induction newCMs as [|d newCMs IH]; [done|].
    rewrite filter_cons_True; [by rewrite <-IH|done].
  - clear. induction newCMs as [|d newCMs IH]; [done|]. by simpl.
Qed.

Lemma rulesCMDiff_all_NoOp currentCMs newCMs :
  (∀ d, d ∈ newCMs → classify currentCMs d = NoOp) →
  rulesCMDiff currentCMs newCMs = ([], []).
Proof.
  intros Hall.
  rewrite rulesCMDiff_filter_omap. f_equal.
  - induction newCMs as [|d newCMs IH]; [done|].
    rewrite filter_cons_False.
    + apply IH. intros d' Hd'. apply Hall. by right.
    + unfold isCreate. rewrite Hall; [intros []|by left].
  - induction newCMs as [|d newCMs IH]; [done|]. simpl.
    unfold updateOf at 1. rewrite (Hall d) by (by left).
    apply IH. intros d' Hd'. apply Hall. by right.
Qed.

Lemma applyDecision_Name currentCMs d :
  ConfigMap.Name (applyDecision currentCMs d) = ConfigMap.Name d.
Proof.
  unfold applyDecision, classify.
  destruct (existingFor currentCMs d) as [existing|] eqn:Hex; [|done].
  apply existingFor_Some in Hex as [_ Hname]. simpl.
  by case_bool_decide.
Qed.

Lemma classify_applied currentCMs (stored : list ConfigMap.t) d :
  NoDup (ConfigMap.Name <$> stored) →
  applyDecision currentCMs d ∈ stored →
  classify stored d = NoOp.
Proof.
  intros Hnd Hin. unfold classify at 1.
  rewrite (existingFor_unique stored (applyDecision currentCMs d) d Hnd Hin)
    by (by rewrite applyDecision_Name).
  simpl. rewrite bool_decide_true; [done|].
  unfold applyDecision, classify.
  destruct (existingFor currentCMs d) as [existing|] eqn:Hex; simpl.
  - case_bool_decide as Hsame; simpl.
    + done.
    + split; [done|]. split; [done|].
      by rewrite (assoc (∪)), (idemp (∪)).
  - by rewrite (idemp (∪)).
Qed.

Lemma applyDecision_names currentCMs (newCMs : list ConfigMap.t) :
  ConfigMap.Name <$> (applyDecision currentCMs <$> newCMs)
  = ConfigMap.Name <$> newCMs.
Proof.
  rewrite <-list_fmap_compose. apply list_fmap_ext.
  intros i d _. apply applyDecision_Name.
Qed.

(** X12: the diff converges.  Once the creations and updates it asks for
    are stored, and the objects it left alone are as they were, the diff
    of the same desired objects against the stored ones is empty. *)
Theorem rulesCMDiff_converges (currentCMs newCMs : list ConfigMap.t) :
  NoDup (ConfigMap.Name <$> newCMs) →
  rulesCMDiff (applyDecision currentCMs <$> newCMs) newCMs = ([], []).
Proof.
  intros Hnd. apply rulesCMDiff_all_NoOp. intros d Hd.
  apply (classify_applied currentCMs).
  - by rewrite applyDecision_names.
  - by apply list_elem_of_fmap_2.
Qed.

Lemma rulesCMDiff_converges_witness :
  rulesCMDiff (applyDecision [storedCM; orphanCM] <$> [desiredCM0; desiredCM1])
              [desiredCM0; desiredCM1] = ([], []).
Proof.
  apply (rulesCMDiff_converges [storedCM; orphanCM] [desiredCM0; desiredCM1]).
  apply (bool_decide_unpack _). by vm_compute.
Defined.

(** X13: every desired object is in at most one of the two lists: both
    lists follow the order of the desired objects, together they are no
    longer than the desired list, and no name is in both. *)
Theorem rulesCMDiff_outputs (currentCMs newCMs : list ConfigMap.t) :
  (rulesCMDiff currentCMs newCMs).1 `sublist_of` newCMs
  ∧ ConfigMap.Name <$> (rulesCMDiff currentCMs newCMs).2
      `sublist_of` ConfigMap.Name <$> newCMs
  ∧ length (rulesCMDiff currentCMs newCMs).1
    + length (rulesCMDiff currentCMs newCMs).2 ≤ length newCMs
  ∧ ∀ c u, c ∈ (rulesCMDiff currentCMs newCMs).1 →
           u ∈ (rulesCMDiff currentCMs newCMs).2 →
           ConfigMap.Name c ≠ ConfigMap.Name u.
Proof.
  rewrite rulesCMDiff_filter_omap. simpl.
  assert (∀ d cm, updateOf currentCMs d = Some cm →
            ConfigMap.Name cm = ConfigMap.Name d
            ∧ ∃ existing, existing ∈ currentCMs
                          ∧ ConfigMap.Name d = ConfigMap.Name existing) as Hup.
  { intros d cm. unfold updateOf, classify.
    destruct (existingFor currentCMs d) as [existing|] eqn:Hex; [|done].
    apply existingFor_Some in Hex. simpl.
    case_bool_decide; [done|]. intros [= <-]. simpl. eauto. }
  split; [apply sublist_filter|]. split; [|split].
  - induction newCMs as [|d newCMs IH]; [done|]. simpl.
    destruct (updateOf currentCMs d) as [cm|] eqn:Hd; simpl.
    + destruct (Hup d cm Hd) as [-> _]. by apply sublist_skip.
    + by apply sublist_cons.
  - induction newCMs as [|d newCMs IH]; [done|].
    assert (omap (updateOf currentCMs) (d :: newCMs)
            = match updateOf currentCMs d with
              | Some cm => cm :: omap (updateOf currentCMs) newCMs
              | None => omap (updateOf currentCMs) newCMs
              end) as -> by done.
    rewrite filter_cons.
    destruct (decide (isCreate currentCMs d)) as [Hc|Hc].
    + assert (updateOf currentCMs d = None) as ->.
      { unfold isCreate, updateOf in *. by destruct (classify currentCMs d). }
      simpl. lia.
    + destruct (updateOf currentCMs d); simpl; lia.
  - intros c u [Hc _]%list_elem_of_filter (d & _ & Hd)%list_elem_of_omap Heq.
    destruct (Hup d u Hd) as [Hname (existing & Hin & Hex)].
    unfold isCreate, classify in Hc.
    destruct (existingFor currentCMs c) as [?|] eqn:Hnone.
    + simpl in Hc. by case_bool_decide.
    + rewrite existingFor_None in Hnone.
      apply (Hnone existing Hin). congruence.
Qed.

(** X14: against a slice of zero-valued current objects, as it is left
    when the API server has none of the desired ConfigMaps, the diff
    schedules every desired ConfigMap for creation and none for update. *)
Theorem rulesCMDiff_fresh_cluster `{!API} (cr : VMAlert.t)
    (ruleFiles : gmap string string) :
  ∃ cms,
    makeRulesConfigMaps cr ruleFiles = Some cms
    ∧ rulesCMDiff (merge_sort cm_le (replicate (length cms) ConfigMap.zero))
                  (merge_sort cm_le cms)
      = (merge_sort cm_le cms, []).
Proof.
  destruct (makeBuckets_packInv ruleFiles) as (buckets & idx & Hb & _).
  unfold makeRulesConfigMaps. rewrite Hb. simpl. eexists. split; [done|].
  set (cms := imap _ buckets).
  set (current := merge_sort cm_le (replicate (length cms) ConfigMap.zero)).
  assert (∀ d, d ∈ merge_sort cm_le cms → classify current d = Create) as Hall.
  { intros d Hd. rewrite merge_sort_Permutation in Hd.
    apply list_elem_of_lookup in Hd as [i Hi]. unfold cms in Hi.
    rewrite list_lookup_imap in Hi.
    destruct (buckets !! i) as [b|]; simplify_eq/=.
    unfold classify.
    assert (existingFor current
              (ConfigMap.set_Name
                 (ruleConfigMapName (VMAlert.Name cr) +:+ "-" +:+ Itoa i)
                 (makeRulesConfigMap cr b)) = None) as ->; [|done].
    apply existingFor_None. intros cur Hcur. unfold current in Hcur.
    rewrite merge_sort_Permutation in Hcur.
    apply elem_of_replicate in Hcur as [-> _]. done. }
  rewrite rulesCMDiff_filter_omap. revert Hall.
  generalize (merge_sort cm_le cms) as l. intros l Hall. f_equal.
  - induction l as [|d l IH]; [done|].
    rewrite filter_cons_True.
    + f_equal. apply IH. intros d' Hd'. apply Hall. by right.
    + unfold isCreate. by rewrite Hall by (by left).
  - induction l as [|d l IH]; [done|]. simpl.
    unfold updateOf at 1. rewrite (Hall d) by (by left).
    apply IH. intros d' Hd'. apply Hall. by right.
Qed.

(** ** Selection and the applier *)

Section applier_more.
Context `{!API} {W : Type} `{!Client W}.

Lemma selectRulesUpdateStatus_run cr (s : State W) lists w1 :
  VisitObjectsForSelectorsAtNs cr (world s) = (inl lists, w1) →
  ∃ s2,
    selectRulesUpdateStatus cr s
    = renderAndReport cr (foldl visitList ([], []) lists).2
        (if NeedDedupRules cr
         then (deduplicateRules (foldl visitList ([], []) lists).1).1
         else (foldl visitList ([], []) lists).1) s2
    ∧ world s2 = w1
    ∧ badConfigsTotal s2 = badConfigsTotal s.
Proof.
  intros Hvisit.
  destruct (foldl visitList ([], []) lists) as [selected names] eqn:Hsel.
  destruct (dedupIfNeeded_run cr selected
              (mkState w1 (logs s) (badConfigsTotal s)))
    as (s2 & Hrun & Hw & Hc).
  exists s2. split; [|done].
  unfold selectRulesUpdateStatus, bind, call. rewrite Hvisit, Hsel.
  by rewrite Hrun.
Qed.

Lemma renderAndReport_result cr names vmRules (s : State W) :
  badConfigsTotal (renderAndReport cr names vmRules s).2
    = badConfigsTotal s ++ [length (renderRules cr vmRules).2]
  ∧ ∀ rules, (renderAndReport cr names vmRules s).1 = Ok rules →
             rules = injectDefault (renderRules cr vmRules).1.1.
Proof.
  unfold renderAndReport.
  destruct (renderRules cr vmRules) as [[rules valid] bad].
  unfold bind, badConfigsTotal_Add, call, fail, ret, log. simpl.
  destruct (StatusForChildObjects _ valid _) as [[err|] w2]; simpl; [done|].
  destruct (StatusForChildObjects _ bad _) as [[err|] w3]; simpl; [done|].
  case_bool_decide; simpl; split; try done; by intros ? [= <-].
Qed.

Lemma injectDefault_nonempty (rules : gmap string string) :
  injectDefault rules ≠ ∅.
Proof.
  unfold injectDefault. case_bool_decide as Hsize.
  - apply insert_non_empty.
  - intros ->. by rewrite map_size_empty in Hsize.
Qed.

(** X15: the file map that [selectRulesUpdateStatus] returns is never
    empty: when the loop rendered at least one file it is the map of the
    rendered files, with nothing added, and when it rendered none it is
    the fallback file alone. *)
Theorem selectRulesUpdateStatus_nonempty (cr : VMAlert.t) (s s' : State W)
    (rules : gmap string string) :
  selectRulesUpdateStatus cr s = (Ok rules, s') →
  rules ≠ ∅
  ∧ ∃ lists w1 files,
      VisitObjectsForSelectorsAtNs cr (world s) = (inl lists, w1)
      ∧ files = (renderRules cr
                   (if NeedDedupRules cr
                    then (deduplicateRules (foldl visitList ([], []) lists).1).1
                    else (foldl visitList ([], []) lists).1)).1.1
      ∧ (files ≠ ∅ → rules = files)
      ∧ (files = ∅ → rules = {[ "default-vmalert.yaml" := defAlert ]}).
Proof.
  intros Hrun.
  destruct (VisitObjectsForSelectorsAtNs cr (world s)) as [[lists|err] w1]
    eqn:Hvisit.
  - destruct (selectRulesUpdateStatus_run cr s lists w1 Hvisit)
      as (s2 & Heq & _ & _).
    rewrite Heq in Hrun.
    destruct (renderAndReport_result cr (foldl visitList ([], []) lists).2
                (if NeedDedupRules cr
                 then (deduplicateRules (foldl visitList ([], []) lists).1).1
                 else (foldl visitList ([], []) lists).1) s2) as [_ Hres].
    rewrite Hrun in Hres. specialize (Hres rules eq_refl). subst rules.
    split; [apply injectDefault_nonempty|].
    eexists lists, w1, _. split; [done|]. split; [done|].
    unfold injectDefault. case_bool_decide as Hsize.
    + apply map_size_empty_iff in Hsize. rewrite Hsize. split; [done|].
      intros _. apply insert_empty.
    + split; [done|]. intros Hempty. by rewrite Hempty, map_size_empty in Hsize.
  - unfold selectRulesUpdateStatus, bind, call, fail in Hrun.
    rewrite Hvisit in Hrun. done.
Qed.

(** X16: a failed selection is returned as it is and leaves the log and
    the counter alone.  After a successful selection the bad-object
    counter is increased exactly once, by the number of bad rule sources,
    also when a status write fails afterwards. *)
Theorem selectRulesUpdateStatus_accounting (cr : VMAlert.t) (s : State W) :
  match VisitObjectsForSelectorsAtNs cr (world s) with
  | (inr err, w1) =>
      selectRulesUpdateStatus cr s
      = (Fail err, mkState w1 (logs s) (badConfigsTotal s))
  | (inl lists, w1) =>
      badConfigsTotal (selectRulesUpdateStatus cr s).2
      = badConfigsTotal s
        ++ [length (renderRules cr
                      (if NeedDedupRules cr
                       then (deduplicateRules (foldl visitList ([], []) lists).1).1
                       else (foldl visitList ([], []) lists).1)).2]
  end.
Proof.
  destruct (VisitObjectsForSelectorsAtNs cr (world s)) as [[lists|err] w1]
    eqn:Hvisit.
  - destruct (selectRulesUpdateStatus_run cr s lists w1 Hvisit)
      as (s2 & -> & _ & <-).
    apply renderAndReport_result.
  - unfold selectRulesUpdateStatus, bind, call, fail. by rewrite Hvisit.
Qed.

Lemma diffAndApply_names cr currentCMs newConfigMaps names (s s' : State W) r :
  diffAndApply cr currentCMs newConfigMaps names s = (Ok r, s') →
  r = sort_Strings names.
Proof.
  unfold diffAndApply.
  destruct (rulesCMDiff _ _) as [toCreate toUpdate].
  unfold bind at 1.
  destruct (createAdditional toCreate s) as [[[]|err|] s1]; [|done..].
  unfold bind at 1.
  destruct (updateAll toUpdate s1) as [[[]|err|] s2]; [|done..].
  unfold bind at 1.
  destruct (bool_decide (0 < length toCreate) || bool_decide (0 < length toUpdate)).
  - unfold bind, log, call, ret. simpl.
    destruct (UpdatePodAnnotations _ _ _) as [[err|] w]; simpl;
      by intros [= <- _].
  - unfold ret. by intros [= <- _].
Qed.

(** X17: a run for a managed VMAlert that succeeds returns the names of
    the desired ConfigMaps, of which there is at least one, sorted as
    strings. *)
Theorem CreateOrUpdateRuleConfigMaps_names (cr : VMAlert.t) (s s' : State W)
    (names : list string) :
  IsUnmanaged cr = false →
  CreateOrUpdateRuleConfigMaps cr s = (Ok names, s') →
  ∃ newRules s1 newConfigMaps,
    selectRulesUpdateStatus cr s = (Ok newRules, s1)
    ∧ makeRulesConfigMaps cr newRules = Some newConfigMaps
    ∧ names = sort_Strings (ConfigMap.Name <$> newConfigMaps)
    ∧ names ≡ₚ ConfigMap.Name <$> newConfigMaps
    ∧ Sorted String.le names
    ∧ 0 < length names.
Proof.
  intros Hmanaged. unfold CreateOrUpdateRuleConfigMaps. rewrite Hmanaged.
  unfold bind at 1.
  destruct (selectRulesUpdateStatus cr s) as [[newRules|err|] s1]; [|done..].
  unfold bind at 1, orPanic.
  destruct (makeRulesConfigMaps cr newRules) as [newConfigMaps|] eqn:Hcms;
    [|done].
  unfold ret at 1. unfold bind at 1.
  destruct (getCurrentCMs 0 newConfigMaps _ s1) as [[currentCMs|err|] s2] eqn:Hget;
    [|done..].
  apply getCurrentCMs_length in Hget. rewrite length_replicate in Hget.
  apply makeRulesConfigMaps_nonempty in Hcms as Hpos.
  rewrite bool_decide_false by lia. intros Hrun.
  apply diffAndApply_names in Hrun. subst names.
  exists newRules, s1, newConfigMaps. split; [done|]. split; [done|].
  split; [done|]. unfold sort_Strings. split; [apply merge_sort_Permutation|].
  split; [apply Sorted_merge_sort; apply _|].
  by rewrite merge_sort_Permutation, length_fmap.
Qed.

(** X18: a creation refused because the object already exists does not
    stop the loop: when that is the only error the API server answers
    creations with, every object is attempted, in order, and the loop
    succeeds. *)
Theorem createAdditional_conflicts (toCreate : list ConfigMap.t) (s : State W) :
  (∀ cm w err, (client_Create cm w).1 = Some err → IsAlreadyExists err = true) →
  ∃ s',
    createAdditional toCreate s = (Ok tt, s')
    ∧ logs s'
      = logs s ++ ((λ cm, Info "creating additional configmap=%s for rules"
                               [ConfigMap.Name cm]) <$> toCreate)
    ∧ badConfigsTotal s' = badConfigsTotal s.
Proof.
  intros Hconf. revert s.
  induction toCreate as [|cm toCreate IH]; intros s; simpl.
  { exists s. unfold ret. by rewrite app_nil_r. }
  unfold bind, log, call. simpl.
  pose proof (Hconf cm (world s)) as Hcm.
  destruct (client_Create cm (world s)) as [[err|] w]; simpl in *.
  - rewrite (Hcm err eq_refl).
    destruct (IH (mkState w (logs s ++ [Info "creating additional configmap=%s for rules"
                                           [ConfigMap.Name cm]])
                          (badConfigsTotal s))) as (s' & -> & Hlogs & Hc).
    exists s'. simpl in *. split; [done|]. split; [|done].
    by rewrite Hlogs, <-(assoc_L (++)).
  - destruct (IH (mkState w (logs s ++ [Info "creating additional configmap=%s for rules"
                                           [ConfigMap.Name cm]])
                          (badConfigsTotal s))) as (s' & -> & Hlogs & Hc).
    exists s'. simpl in *. split; [done|]. split; [|done].
    by rewrite Hlogs, <-(assoc_L (++)).
Qed.

(** X19: a second pass does nothing.  Against the objects that carrying
    out the diff has stored, the applier makes no call to the API
    server, writes no log line and triggers no reload: the state is as
    before, and the sorted names are returned. *)
Theorem diffAndApply_converged (cr : VMAlert.t)
    (currentCMs newConfigMaps : list ConfigMap.t) (names : list string)
    (s : State W) :
  NoDup (ConfigMap.Name <$> newConfigMaps) →
  diffAndApply cr (applyDecision currentCMs <$> newConfigMaps) newConfigMaps
    names s
  = (Ok (sort_Strings names), s).
Proof.
  intros Hnd. unfold diffAndApply.
  rewrite rulesCMDiff_all_NoOp; [by destruct s|].
  intros d Hd. rewrite merge_sort_Permutation in Hd.
  apply (classify_applied currentCMs).
  - by rewrite merge_sort_Permutation, applyDecision_names.
  - rewrite merge_sort_Permutation. by apply list_elem_of_fmap_2.
Qed.

End applier_more.

Lemma selectRulesUpdateStatus_nonempty_witness :
  ∃ rules s',
    @selectRulesUpdateStatus (exampleAPI 524288) Cluster memClient exampleCR
      (mkState teamCluster [] []) = (Ok rules, s')
    ∧ rules ≠ ∅
    ∧ rules !! "default-vmalert.yaml" = None.
Proof.
  eexists _, _. split; [by vm_compute|]. split.
  - eapply (@selectRulesUpdateStatus_nonempty (exampleAPI 524288) Cluster
              memClient exampleCR (mkState teamCluster [] [])).
    by vm_compute.
  - by vm_compute.
Defined.

Lemma CreateOrUpdateRuleConfigMaps_names_witness :
  ∃ names s',
    @CreateOrUpdateRuleConfigMaps (exampleAPI 524288) Cluster memClient
      exampleCR freshRun = (Ok names, s')
    ∧ Sorted String.le names.
Proof.
  eexists _, _. split; [by vm_compute|].
  destruct (@CreateOrUpdateRuleConfigMaps_names (exampleAPI 524288) Cluster
              memClient exampleCR freshRun
              (@CreateOrUpdateRuleConfigMaps (exampleAPI 524288) Cluster
                 memClient exampleCR freshRun).2
              ["vm-example-rulefiles-0"])
    as (_ & _ & _ & _ & _ & _ & _ & Hsorted & _).
  - reflexivity.
  - by vm_compute.
  - exact Hsorted.
Defined.

Lemma createAdditional_conflicts_witness :
  ∃ s', @createAdditional Cluster memClient [desiredCM0; desiredCM0] freshRun
        = (Ok tt, s')
        ∧ length (logs s') = 2.
Proof.
  destruct (@createAdditional_conflicts Cluster memClient
              [desiredCM0; desiredCM0] freshRun) as (s' & Hrun & Hlogs & _).
  - intros cm w err. simpl.
    destruct (configMaps w !! _); simpl; [by intros [= <-]|done].
  - exists s'. split; [done|]. by rewrite Hlogs.
Defined.

Lemma diffAndApply_converged_witness :
  @diffAndApply (exampleAPI 524288) Cluster memClient exampleCR
    (applyDecision [storedCM; orphanCM] <$> [desiredCM0; desiredCM1])
    [desiredCM0; desiredCM1]
    ["vm-example-rulefiles-0"; "vm-example-rulefiles-1"] freshRun
  = (Ok (sort_Strings ["vm-example-rulefiles-0"; "vm-example-rulefiles-1"]),
     freshRun).
Proof.
  apply (@diffAndApply_converged (exampleAPI 524288) Cluster memClient exampleCR
           [storedCM; orphanCM] [desiredCM0; desiredCM1]).
  apply (bool_decide_unpack _). by vm_compute.
Defined.

(** ** How many ConfigMaps *)

Section packer_count.
Context `{!API}.

Lemma packFile_length ruleFiles st f st' :
  packFile ruleFiles st f = Some st' → length st'.1 ≤ S (length st.1).
Proof.
  destruct st as [buckets idx]. unfold packFile.
  destruct (buckets !! idx) as [curr|]; [|done]. simpl.
  case_bool_decide.
  - destruct ((buckets ++ [∅]) !! S idx) as [curr'|]; [|done]. simpl.
    intros [= <-]. simpl. rewrite length_insert, length_app. simpl. lia.
  - destruct (buckets !! idx) as [curr'|]; [|done]. simpl.
    intros [= <-]. simpl. rewrite length_insert. lia.
Qed.

Lemma packFiles_length ruleFiles names : ∀ st st',
  packFiles ruleFiles st names = Some st' →
  length st'.1 ≤ length st.1 + length names.
Proof.
  induction names as [|f names IH]; intros st st' Hrun; simpl in Hrun.
  { simplify_eq. lia. }
  destruct (packFile ruleFiles st f) as [st1|] eqn:Hst1; [|done].
  apply packFile_length in Hst1. apply IH in Hrun. simpl. lia.
Qed.

(** X20: there are at most as many ConfigMaps as files, plus one. *)
Theorem makeRulesConfigMaps_count (cr : VMAlert.t) (ruleFiles : gmap string string) :
  ∃ cms,
    makeRulesConfigMaps cr ruleFiles = Some cms
    ∧ 1 ≤ length cms ≤ 1 + size ruleFiles.
Proof.
  destruct (makeBuckets_packInv ruleFiles) as (buckets & idx & Hb & Hinv).
  destruct (makeRulesConfigMaps_Data cr ruleFiles buckets Hb) as (cms & Hcms & HD).
  exists cms. split; [done|].
  apply inv_curr in Hinv. simpl in Hinv.
  unfold makeBuckets in Hb.
  destruct (packFiles ruleFiles ([∅], 0) (fileNames ruleFiles)) as [st'|] eqn:Hrun;
    [|done].
  apply packFiles_length in Hrun. simpl in Hb, Hrun. simplify_eq.
  rewrite Hb, length_fmap in Hrun. rewrite length_fmap in Hinv.
  assert (length (fileNames ruleFiles) = size ruleFiles) as Hsize.
  { rewrite fileNames_Permutation, length_fmap. apply length_map_to_list. }
  lia.
Qed.

(** While the files still to come fit beside what the bucket holds, the
    loop stays in that bucket. *)
Lemma packFiles_single ruleFiles names : ∀ b,
  (MaxConfigMapDataSize < 2 ^ 63)%Z →
  (0 ≤ bucketSize b)%Z →
  (bucketSize b
   + sumLen ((λ f, default EmptyString (ruleFiles !! f)) <$> names)
   ≤ MaxConfigMapDataSize)%Z →
  NoDup names →
  (∀ f, f ∈ names → b !! f = None) →
  ∃ b', packFiles ruleFiles ([b], 0) names = Some ([b'], 0).
Proof.
  induction names as [|f names IH]; intros b Hcap Hpos Hsum Hnd Hfresh.
  { by exists b. }
  apply NoDup_cons in Hnd as [Hf Hnd]. rewrite fmap_cons in Hsum.
  change (sumLen (?a :: ?l)) with (len a + sumLen l)%Z in Hsum.
  set (c := default EmptyString (ruleFiles !! f)) in *.
  pose proof (len_nonneg c) as Hc.
  pose proof (sumLen_nonneg ((λ f, default EmptyString (ruleFiles !! f)) <$> names))
    as Hrest.
  assert (int_add (bucketSize b) (len c) = (bucketSize b + len c)%Z) as Hadd.
  { unfold int_add. apply wrap_int_small. lia. }
  change (packFiles ruleFiles ([b], 0) (f :: names))
    with (packFile ruleFiles ([b], 0) f ≫= λ st, packFiles ruleFiles st names).
  rewrite (packFile_step _ _ _ b) by done. cbv zeta. fold c. rewrite Hadd.
  rewrite bool_decide_false by lia. simpl.
  apply IH; [done| | |done|].
  - rewrite bucketSize_insert by (apply Hfresh; by left). rewrite Hadd. lia.
  - rewrite bucketSize_insert by (apply Hfresh; by left). rewrite Hadd. lia.
  - intros g Hg. rewrite lookup_insert_ne by (by intros ->).
    apply Hfresh. by right.
Qed.

(** The contents taken in the order of the sorted filenames are the
    values of the map. *)
Lemma fileNames_contents (ruleFiles : gmap string string) :
  (λ f, default EmptyString (ruleFiles !! f)) <$> fileNames ruleFiles
  ≡ₚ (map_to_list ruleFiles).*2.
Proof.
  rewrite fileNames_Permutation, <-list_fmap_compose.
  assert (((λ f, default EmptyString (ruleFiles !! f)) ∘ fst) <$> map_to_list ruleFiles
          = (map_to_list ruleFiles).*2) as ->; [|done].
  apply list_fmap_ext. intros i [k v] Hi. simpl.
  apply list_elem_of_lookup_2, elem_of_map_to_list in Hi. by rewrite Hi.
Qed.

(** X21: files that together are no larger than the cap are not split:
    they end up in one ConfigMap, whose data is the file map. *)
Theorem makeRulesConfigMaps_single (cr : VMAlert.t) (ruleFiles : gmap string string) :
  (sumLen (map_to_list ruleFiles).*2 ≤ MaxConfigMapDataSize < 2 ^ 63)%Z →
  ∃ cm,
    makeRulesConfigMaps cr ruleFiles = Some [cm]
    ∧ ConfigMap.Data cm = ruleFiles.
Proof.
  intros Hcap.
  destruct (makeBuckets_packInv ruleFiles) as (buckets & idx & Hb & Hinv).
  destruct (makeRulesConfigMaps_Data cr ruleFiles buckets Hb) as (cms & Hcms & HD).
  destruct (packFiles_single ruleFiles (fileNames ruleFiles) ∅) as [b' Hrun].
  - lia.
  - by rewrite bucketSize_empty.
  - rewrite bucketSize_empty, (sumLen_Permutation _ _ (fileNames_contents _)). lia.
  - apply fileNames_NoDup.
  - intros f _. apply lookup_empty.
  - unfold makeBuckets in Hb. rewrite Hrun in Hb. simpl in Hb. simplify_eq.
    destruct cms as [|cm [|? ?]]; simplify_eq/=.
    exists cm. split; [done|]. apply map_eq. intros f.
    destruct (ConfigMap.Data cm !! f) as [c|] eqn:Hf.
    + by destruct (inv_sound _ _ _ Hinv 0 (ConfigMap.Data cm) f c) as [_ ->].
    + destruct (ruleFiles !! f) as [c|] eqn:Hc; [|done].
      destruct (inv_complete _ _ _ Hinv f) as ([|i] & b & Hi & [x Hx]);
        [apply elem_of_fileNames; eauto| |done].
      simpl in Hi. simplify_eq.
Qed.

End packer_count.

Lemma makeRulesConfigMaps_single_witness :
  ∃ cm,
    @makeRulesConfigMaps (exampleAPI 13) exampleCR threeFiles = Some [cm]
    ∧ ConfigMap.Data cm = threeFiles.
Proof.
  apply (@makeRulesConfigMaps_single (exampleAPI 13) exampleCR threeFiles).
  by vm_compute.
Defined.

(** ** The selection callback *)

Lemma visitList_spec (items : list VMRule.t) : ∀ acc,
  visitList acc items
  = (acc.1 ++ filter (λ r, VMRule.DeletionTimestampIsZero r) items,
     acc.2 ++ ((λ r, VMRule.Namespace r +:+ "/" +:+ VMRule.Name r)
                 <$> filter (λ r, VMRule.DeletionTimestampIsZero r) items)).
Proof.
  unfold visitList.
  induction items as [|item items IH]; intros [vmRules names]; simpl.
  { by rewrite !app_nil_r. }
  rewrite filter_cons. destruct (VMRule.DeletionTimestampIsZero item); simpl.
  - rewrite IH. simpl. by rewrite <-!(assoc_L (++)).
  - by rewrite IH.
Qed.

(** X22: the callback selects the rule sources that are not being
    deleted, all of them and in the order they are visited, and lists
    their [namespace/name] alongside. *)
Theorem visitList_selected (lists : list (list VMRule.t)) :
  (foldl visitList ([], []) lists).1
  = filter (λ r, VMRule.DeletionTimestampIsZero r) (concat lists)
  ∧ (foldl visitList ([], []) lists).2
    = (λ r, VMRule.Namespace r +:+ "/" +:+ VMRule.Name r)
        <$> (foldl visitList ([], []) lists).1.
Proof.
  assert (∀ acc,
            foldl visitList acc lists
            = (acc.1 ++ filter (λ r, VMRule.DeletionTimestampIsZero r) (concat lists),
               acc.2 ++ ((λ r, VMRule.Namespace r +:+ "/" +:+ VMRule.Name r)
                           <$> filter (λ r, VMRule.DeletionTimestampIsZero r)
                                      (concat lists)))) as Hgen.
  { induction lists as [|items lists IH]; intros acc; simpl.
    - destruct acc. by rewrite !app_nil_r.
    - rewrite IH, visitList_spec. simpl.
      by rewrite filter_app, fmap_app, <-!(assoc_L (++)). }
  by rewrite Hgen.
Qed.
